(** * timescale_writer: the consume / enrich / insert / republish loop

    A shallow embedding of [listenbrainz/timescale_writer/timescale_writer.py]
    ([TimescaleWriterSubscriber]) and the properties of its batch handling.

    Python dictionaries are finite maps ([gmap string _]), Python integers are
    [Z], the fields of [self] form the record [Self], and every call to an
    external collaborator (lookup service, storage, broker, redis, metrics,
    clock) is answered by the record [World] and recorded in a trace of
    [event]s. The methods are written in a small monad over [Self], the
    trace and Python's exceptions, so that each definition follows its
    method line by line; a [while True] retry loop consumes the broker's
    scripted answers and is still [Retrying] when the script ends. *)

From Stdlib Require Import Ascii.
From stdpp Require Import gmap strings list fin_maps pretty sorting.

Open Scope Z_scope.

(** ** Module constants (lines 19-20, 31) *)

Definition METRIC_UPDATE_INTERVAL : Z := 60.
Definition LISTEN_INSERT_ERROR_SENTINEL : Z := -1.
Definition ERROR_RETRY_DELAY : Z := 3.

(** ** JSON values and records off the wire *)

Inductive jval : Type :=
| JStr (s : string)
| JNum (n : Z)
| JList (l : list string).

Global Instance jval_eq_dec : EqDecision jval.
Proof. solve_decision. Defined.

(** [listen['track_metadata']]: the two names every record carries, the
    optional release name and the optional [additional_info] dictionary. *)
Record TrackMetadata : Type := mkTrackMetadata {
  artist_name : string;
  track_name : string;
  release_name : option string;
  additional_info : option (gmap string jval)
}.

(** One element of the decoded message body: [track_metadata] and the other
    top-level keys ([listened_at], [user_name], [recording_msid], ...). *)
Record RawRecord : Type := mkRawRecord {
  track_metadata : TrackMetadata;
  fields : gmap string jval
}.

(** [listenbrainz.listen.Listen], as far as the writer reads it:
    [ts_since_epoch], [user_name] and [data] (the track metadata). *)
Record Listen : Type := mkListen {
  ts_since_epoch : Z;
  user_name : string;
  data : TrackMetadata
}.

Global Instance TrackMetadata_eq_dec : EqDecision TrackMetadata.
Proof. solve_decision. Defined.
Global Instance RawRecord_eq_dec : EqDecision RawRecord.
Proof. solve_decision. Defined.
Global Instance Listen_eq_dec : EqDecision Listen.
Proof. solve_decision. Defined.

(** A row reported by the storage insert: [(listened_at, track_name, user_name)]. *)
Definition Row : Type := Z * string * string.

(** ** The reconciliation key (lines 188-196) *)

(** ['%d-%s-%s' % (a, b, c)] *)
Definition format_key (ts : Z) (track user : string) : string :=
  pretty ts +:+ "-" +:+ track +:+ "-" +:+ user.

Definition row_key (inserted : Row) : string :=
  format_key inserted.1.1 inserted.1.2 inserted.2.

Definition listen_key (listen : Listen) : string :=
  format_key (ts_since_epoch listen) (track_name (data listen)) (user_name listen).

(** The first loop: [inserted_index[key] = 1] for every reported row. *)
Fixpoint build_index (rows_inserted : list Row) (inserted_index : gmap string Z)
  : gmap string Z :=
  match rows_inserted with
  | [] => inserted_index
  | inserted :: rest => build_index rest (<[row_key inserted := 1]> inserted_index)
  end.

(** The second loop: append the listens whose key is in the index. *)
Fixpoint select_unique (inserted_index : gmap string Z) (data : list Listen)
  (unique : list Listen) : list Listen :=
  match data with
  | [] => unique
  | listen :: rest =>
      let k := listen_key listen in
      match inserted_index !! k with
      | Some _ => select_unique inserted_index rest (unique ++ [listen])
      | None => select_unique inserted_index rest unique
      end
  end.

Definition compute_unique (data : list Listen) (rows_inserted : list Row) : list Listen :=
  select_unique (build_index rows_inserted ∅) data [].

(** The composite key of the data model: the triple itself. *)
Definition listen_triple (listen : Listen) : Row :=
  (ts_since_epoch listen, track_name (data listen), user_name listen).

(** ** The fields of [self] (lines 25-41) *)

(** A broker connection handle, and a channel together with the connection
    it was opened on ([self.connection.channel()], lines 252 and 262). *)
Definition Connection : Type := nat.

Record Channel : Type := mkChannel {
  opened_on : Connection
}.

Global Instance Channel_eq_dec : EqDecision Channel.
Proof. solve_decision. Defined.

Record Self : Type := mkSelf {
  connection : option Connection;
  incoming_ch : Channel;
  unique_ch : Channel;
  incoming_listens : Z;
  unique_listens : Z;
  metric_submission_time : Z
}.

Global Instance Self_eq_dec : EqDecision Self.
Proof. solve_decision. Defined.

Definition set_connection (c : option Connection) (s : Self) : Self :=
  mkSelf c (incoming_ch s) (unique_ch s) (incoming_listens s) (unique_listens s)
         (metric_submission_time s).

Definition set_incoming_listens (n : Z) (s : Self) : Self :=
  mkSelf (connection s) (incoming_ch s) (unique_ch s) n (unique_listens s)
         (metric_submission_time s).

Definition set_unique_listens (n : Z) (s : Self) : Self :=
  mkSelf (connection s) (incoming_ch s) (unique_ch s) (incoming_listens s) n
         (metric_submission_time s).

Definition set_metric_submission_time (t : Z) (s : Self) : Self :=
  mkSelf (connection s) (incoming_ch s) (unique_ch s) (incoming_listens s)
         (unique_listens s) t.

(** ** Exceptions, collaborators and the trace *)

Inductive exn : Type :=
| OperationalError (err : string)   (* psycopg2.OperationalError *)
| ConnectionClosed                  (* pika.exceptions.ConnectionClosed *)
| BadDataException                  (* messybrainz.exceptions.BadDataException *)
| ErrorAddingException              (* messybrainz.exceptions.ErrorAddingException *)
| ValueError
| OtherError (name : string).       (* any other subclass of Exception *)

Global Instance exn_eq_dec : EqDecision exn.
Proof. solve_decision. Defined.

(** [str(err)] where the writer formats an exception it handles by class
    (line 175, an [OperationalError]): the text the exception carries. The
    other exceptions of the model carry none and stand for their class. *)
Definition exn_str (e : exn) : string :=
  match e with
  | OperationalError err => err
  | ConnectionClosed => "ConnectionClosed"
  | BadDataException => "BadDataException"
  | ErrorAddingException => "ErrorAddingException"
  | ValueError => "ValueError"
  | OtherError name => name
  end.

(** What one call to a collaborator does: it returns or it raises. *)
Inductive answer (A : Type) : Type :=
| Ok (a : A)
| Raises (e : exn).
Arguments Ok {A} a.
Arguments Raises {A} e.

(** Every call that leaves the process, in program order. The clock is the
    monotonic clock in whole ticks; [EvPublish] and [EvAck] record each call
    to [basic_publish] / [basic_ack], the channel it went to and whether the
    broker took it. *)
Inductive event : Type :=
| EvLookup (request : list (gmap string jval))
| EvLogError (msg : string)
| EvInsert (data : list Listen)
| EvSleep (seconds : Z)
| EvIncrementDay (count : Z)
| EvPublish (ch : Channel) (body : list Listen) (delivered : bool)
| EvConnect (c : Connection)
| EvUpdateRecent (unique : list Listen)
| EvMonotonic
| EvMetricsSet (incoming unique : Z)
| EvAck (ch : Channel) (delivery_tag : nat) (delivered : bool).

Global Instance event_eq_dec : EqDecision event.
Proof. solve_decision. Defined.

(** The collaborators' answers while one message is handled. The broker
    scripts list what successive calls to [basic_publish] and [basic_ack]
    do ([None]: the call goes through). *)
Record World : Type := mkWorld {
  submit_listens : nat → list (gmap string jval) → answer (list (gmap string jval));
  ls_insert : list Listen → answer (list Row);
  increment_listen_count_for_day : option exn;
  publish_script : list (option exn);
  utils_connect_to_rabbitmq : option Connection → Connection;
  update_recent_listens : option exn;
  monotonic : Z;
  ack_script : list (option exn)
}.

(** ** The monad of the writer: state [Self], a trace, exceptions, and the
    open end of a [while True] retry loop *)

(** How a computation ends: it returns, an exception nothing caught leaves
    it, or it is still inside a retry loop when the broker's script ends. *)

Inductive result (A : Type) : Type :=
| Returned (a : A)
| Raised (e : exn)
| Retrying.
Arguments Returned {A} a.
Arguments Raised {A} e.
Arguments Retrying {A}.

Definition M (A : Type) : Type := Self → result A * Self * list event.

Definition ret {A} (a : A) : M A := λ s, (Returned a, s, []).

Definition bind {A B} (m : M A) (k : A → M B) : M B := λ s,
  match m s with
  | (Returned a, s1, t1) =>
      match k a s1 with (r, s2, t2) => (r, s2, t1 ++ t2) end
  | (Raised e, s1, t1) => (Raised e, s1, t1)
  | (Retrying, s1, t1) => (Retrying, s1, t1)
  end.

Notation "'let!' x ':=' m 'in' k" := (bind m (λ x, k))
  (at level 10, x name, m at level 100, k at level 200, only parsing).
Notation "m ;;; k" := (bind m (λ _, k))
  (at level 100, right associativity, only parsing).

Definition emit (e : event) : M unit := λ s, (Returned tt, s, [e]).
Definition raise {A} (e : exn) : M A := λ s, (Raised e, s, []).
Definition retrying {A} : M A := λ s, (Retrying, s, []).
Definition get {A} (f : Self → A) : M A := λ s, (Returned (f s), s, []).
Definition modify (f : Self → Self) : M unit := λ s, (Returned tt, f s, []).

(** [try: m  except <handles>: h] *)
Definition try_except {A} (m : M A) (handles : exn → bool) (h : exn → M A) : M A := λ s,
  match m s with
  | (Raised e, s1, t1) =>
      if handles e then
        match h e s1 with (r, s2, t2) => (r, s2, t1 ++ t2) end
      else (Raised e, s1, t1)
  | other => other
  end.

(** A collaborator call: the event, then the scripted answer. *)
Definition call {A} (e : event) (a : answer A) : M A :=
  emit e ;;; match a with Ok v => ret v | Raises x => raise x end.

Definition call_unit (e : event) (a : option exn) : M unit :=
  emit e ;;; match a with None => ret tt | Some x => raise x end.

Definition log_error (msg : string) : M unit := emit (EvLogError msg).

Definition is_ConnectionClosed (e : exn) : bool :=
  match e with ConnectionClosed => true | _ => false end.
Definition is_OperationalError (e : exn) : bool :=
  match e with OperationalError _ => true | _ => false end.
Definition is_lookup_failure (e : exn) : bool :=
  match e with BadDataException | ErrorAddingException => true | _ => false end.
Definition is_ValueError (e : exn) : bool :=
  match e with ValueError => true | _ => false end.
Definition is_Exception (e : exn) : bool := true.

Definition len {A} (l : list A) : Z := Z.of_nat (length l).

(** ** [connect_to_rabbitmq] (lines 43-53): only [self.connection] is assigned *)

Definition connect_to_rabbitmq (w : World) : M unit :=
  let! old := get connection in
  let c := utils_connect_to_rabbitmq w old in
  emit (EvConnect c) ;;;
  modify (set_connection (Some c)).

Definition went_through (a : option exn) : bool :=
  match a with None => true | Some _ => false end.

(** ** [messybrainz_lookup] (lines 101-152) *)

(** [sorted(...)] on a list of strings. *)
Definition sorted (l : list string) : list string := merge_sort String.le l.

(** [if key in ai: messy_dict[key] = ai[key]] *)
Definition copy_key (key : string) (ai messy_dict : gmap string jval) : gmap string jval :=
  match ai !! key with
  | Some v => <[key := v]> messy_dict
  | None => messy_dict
  end.

(** Lines 104-122: the lookup request built from one record. *)
Definition messy_dict_of (listen : RawRecord) : gmap string jval :=
  let md := track_metadata listen in
  let messy_dict : gmap string jval :=
    <["title" := JStr (track_name md)]> (<["artist" := JStr (artist_name md)]> ∅) in
  let messy_dict :=
    match release_name md with
    | Some r => <["release" := JStr r]> messy_dict
    | None => messy_dict
    end in
  match additional_info md with
  | Some ai =>
      let messy_dict :=
        match ai !! "artist_mbids" with
        | Some (JList l) => <["artist_mbids" := JList (sorted l)]> messy_dict
        | _ => messy_dict
        end in
      let messy_dict := copy_key "release_mbid" ai messy_dict in
      let messy_dict := copy_key "recording_mbid" ai messy_dict in
      let messy_dict := copy_key "track_number" ai messy_dict in
      copy_key "spotify_id" ai messy_dict
  | None => messy_dict
  end.

(** [listen['track_metadata']['additional_info'][key] = v] *)
Definition set_additional_info (key : string) (v : jval) (listen : RawRecord) : RawRecord :=
  let md := track_metadata listen in
  mkRawRecord
    (mkTrackMetadata (artist_name md) (track_name md) (release_name md)
       (Some (<[key := v]> (default ∅ (additional_info md)))))
    (fields listen).

(** Lines 136-137: an absent [additional_info] becomes the empty dict. *)
Definition ensure_additional_info (listen : RawRecord) : RawRecord :=
  let md := track_metadata listen in
  mkRawRecord
    (mkTrackMetadata (artist_name md) (track_name md) (release_name md)
       (Some (default ∅ (additional_info md))))
    (fields listen).

(** [listen['recording_msid'] = v] *)
Definition set_recording_msid (v : jval) (listen : RawRecord) : RawRecord :=
  mkRawRecord (track_metadata listen) (<["recording_msid" := v]> (fields listen)).

(** Lines 139-149 when both mandatory identifiers are there. *)
Definition augment (listen : RawRecord) (ids : gmap string jval)
  (recording_msid artist_msid : jval) : RawRecord :=
  let listen := ensure_additional_info listen in
  let listen := set_recording_msid recording_msid listen in
  let listen := set_additional_info "artist_msid" artist_msid listen in
  match ids !! "release_msid" with
  | Some v => set_additional_info "release_msid" v listen
  | None => listen
  end.

(** The loop of lines 133-151 over [zip(listens, payload)]; a [KeyError] on
    either mandatory identifier logs and leaves the function with [[]]. *)
Fixpoint augment_loop (pairs : list (RawRecord * gmap string jval))
  (augmented_listens : list RawRecord) : M (list RawRecord) :=
  match pairs with
  | [] => ret augmented_listens
  | (listen, ids) :: rest =>
      match ids !! "recording_msid", ids !! "artist_msid" with
      | Some r, Some a =>
          augment_loop rest (augmented_listens ++ [augment listen ids r a])
      | _, _ =>
          log_error "MessyBrainz did not return a proper set of ids" ;;;
          ret []
      end
  end.

(** [call_no]: which lookup of the current message this is. *)
Definition messybrainz_lookup (w : World) (call_no : nat) (listens : list RawRecord)
  : M (list RawRecord) :=
  let msb_listens := messy_dict_of <$> listens in
  let! msb_responses :=
    try_except
      (let! payload := call (EvLookup msb_listens) (submit_listens w call_no msb_listens) in
       ret (Some payload))
      is_lookup_failure
      (λ _, log_error "MessyBrainz lookup for listens failed: " ;;; ret None) in
  match msb_responses with
  | None => ret []
  | Some payload => augment_loop (zip listens payload) []
  end.

(** ** [insert_to_listenstore] (lines 154-222) *)

(** Lines 201-211: [while True] around [basic_publish]. *)
Fixpoint publish_loop (w : World) (script : list (option exn)) (unique : list Listen)
  : M unit :=
  match script with
  | [] => retrying
  | a :: rest =>
      let! ch := get unique_ch in
      let! again :=
        try_except
          (call_unit (EvPublish ch unique (went_through a)) a ;;; ret false)
          is_ConnectionClosed
          (λ _, connect_to_rabbitmq w ;;; ret true) in
      if again : bool then publish_loop w rest unique else ret tt
  end.

(** Lines 216-220. *)
Definition submit_metrics_if_due (w : World) : M unit :=
  emit EvMonotonic ;;;
  let! deadline := get metric_submission_time in
  if bool_decide (monotonic w > deadline) then
    modify (set_metric_submission_time (deadline + METRIC_UPDATE_INTERVAL)) ;;;
    let! incoming := get incoming_listens in
    let! unique := get unique_listens in
    emit (EvMetricsSet incoming unique) ;;;
    modify (set_incoming_listens 0) ;;;
    modify (set_unique_listens 0)
  else ret tt.

Definition insert_to_listenstore (w : World) (data : list Listen) : M Z :=
  if data is [] then ret 0 else
  (let! n := get incoming_listens in modify (set_incoming_listens (n + len data))) ;;;
  let! inserted :=
    try_except
      (let! rows := call (EvInsert data) (ls_insert w data) in ret (Some rows))
      is_OperationalError
      (λ err, log_error ("Cannot write data to listenstore: " +:+ exn_str err +:+ ". Sleep.") ;;;
              emit (EvSleep ERROR_RETRY_DELAY) ;;;
              ret None) in
  match inserted with
  | None => ret LISTEN_INSERT_ERROR_SENTINEL
  | Some rows_inserted =>
      if rows_inserted is [] then ret (len data) else
      try_except
        (call_unit (EvIncrementDay (len rows_inserted)) (increment_listen_count_for_day w))
        is_Exception
        (λ _, log_error "Could not update listen count per day in redis") ;;;
      let unique := compute_unique data rows_inserted in
      if unique is [] then ret (len data) else
      publish_loop w (publish_script w) unique ;;;
      call_unit (EvUpdateRecent unique) (update_recent_listens w) ;;;
      (let! n := get unique_listens in modify (set_unique_listens (n + len unique))) ;;;
      submit_metrics_if_due w ;;;
      ret (len data)
  end.

(** ** [callback] (lines 71-99) *)

(** [more_itertools.chunked(iterable, n)]: consecutive slices of length [n],
    the last one possibly shorter. *)
Fixpoint chunked_go {A} (fuel n : nat) (l : list A) : list (list A) :=
  match fuel, l with
  | O, _ | _, [] => []
  | S fuel, _ => take n l :: chunked_go fuel n (drop n l)
  end.

Definition chunked {A} (l : list A) (n : nat) : list (list A) :=
  match n with
  | O => []
  | _ => chunked_go (length l) n l
  end.

(** Lines 92-97: [while True] around [basic_ack]. *)
Fixpoint ack_loop (w : World) (delivery_tag : nat) (script : list (option exn))
  : M unit :=
  match script with
  | [] => retrying
  | a :: rest =>
      let! ch := get incoming_ch in
      let! again :=
        try_except
          (call_unit (EvAck ch delivery_tag (went_through a)) a ;;; ret false)
          is_ConnectionClosed
          (λ _, connect_to_rabbitmq w ;;; ret true) in
      if again : bool then ack_loop w delivery_tag rest else ret tt
  end.

Section Callback.

(** [MAX_ITEMS_PER_MESSYBRAINZ_LOOKUP] is imported from [api_tools] and
    [Listen.from_json] from [listenbrainz.listen]. *)
Variable MAX_ITEMS_PER_MESSYBRAINZ_LOOKUP : nat.
Variable from_json : RawRecord → answer Listen.

(** Lines 75-77. *)
Fixpoint lookup_chunks (w : World) (call_no : nat) (chunks : list (list RawRecord))
  (msb_listens : list RawRecord) : M (list RawRecord) :=
  match chunks with
  | [] => ret msb_listens
  | chunk :: rest =>
      let! found := messybrainz_lookup w call_no chunk in
      lookup_chunks w (S call_no) rest (msb_listens ++ found)
  end.

(** Lines 79-84. *)
Fixpoint parse_listens (msb_listens : list RawRecord) (submit : list Listen)
  : M (list Listen) :=
  match msb_listens with
  | [] => ret submit
  | listen :: rest =>
      let! submit :=
        try_except
          (match from_json listen with
           | Ok l => ret (submit ++ [l])
           | Raises e => raise e
           end)
          is_ValueError
          (λ _, ret submit) in
      parse_listens rest submit
  end.

(** [delivery_tag]: [method.delivery_tag]; [listens]: the decoded body,
    [ujson.loads(body)]. *)
Definition callback (w : World) (delivery_tag : nat) (listens : list RawRecord) : M Z :=
  let! msb_listens :=
    lookup_chunks w 0 (chunked listens MAX_ITEMS_PER_MESSYBRAINZ_LOOKUP) [] in
  let! submit := parse_listens msb_listens [] in
  let! r := insert_to_listenstore w submit in
  if bool_decide (r = LISTEN_INSERT_ERROR_SENTINEL) then ret r else
  ack_loop w delivery_tag (ack_script w) ;;;
  ret r.

End Callback.

(** The part of [callback] before the insertion (lines 73-84). *)
Definition enrich (MAX_ITEMS_PER_MESSYBRAINZ_LOOKUP : nat) (w : World)
  (listens : list RawRecord) : M (list RawRecord) :=
  lookup_chunks w 0 (chunked listens MAX_ITEMS_PER_MESSYBRAINZ_LOOKUP) [].

Definition enrich_and_parse (MAX_ITEMS_PER_MESSYBRAINZ_LOOKUP : nat)
  (from_json : RawRecord → answer Listen) (w : World) (listens : list RawRecord)
  : M (list Listen) :=
  let! msb_listens := enrich MAX_ITEMS_PER_MESSYBRAINZ_LOOKUP w listens in
  parse_listens from_json msb_listens [].

(** The part of [callback] after the insertion (lines 88-99). *)
Definition acknowledge (w : World) (delivery_tag : nat) (r : Z) : M Z :=
  if bool_decide (r = LISTEN_INSERT_ERROR_SENTINEL) then ret r else
  ack_loop w delivery_tag (ack_script w) ;;;
  ret r.

(** ** Start-up: [_verify_hosts_in_config] (lines 55-69) and the waits of
    [start] for the two stores (lines 231-248) *)

(** What start-up does to the outside: log records, sleeps and the ping. *)
Inductive boot_event : Type :=
| BootCritical (msg : string)
| BootError (msg : string)
| BootSleep (seconds : Z)
| BootPing.

Global Instance boot_event_eq_dec : EqDecision boot_event.
Proof. solve_decision. Defined.

(** How a start-up step ends: control goes on, [sys.exit] ends the process,
    or a [while True] wait is still going when the script of answers ends. *)
Inductive boot_result : Type :=
| Proceeds
| SystemExit (code : Z)
| Waiting.

Global Instance boot_result_eq_dec : EqDecision boot_result.
Proof. solve_decision. Defined.

Definition service_not_defined (service : string) : string :=
  service +:+ " service not defined. Sleeping " +:+ pretty ERROR_RETRY_DELAY
  +:+ " seconds and exiting.".

Definition _verify_hosts_in_config (config : gmap string jval)
  : boot_result * list boot_event :=
  if bool_decide ("REDIS_HOST" ∉ dom config) then
    (SystemExit (-1),
     [BootCritical (service_not_defined "Redis"); BootSleep ERROR_RETRY_DELAY])
  else if bool_decide ("RABBITMQ_HOST" ∉ dom config) then
    (SystemExit (-1),
     [BootCritical (service_not_defined "RabbitMQ"); BootSleep ERROR_RETRY_DELAY])
  else if bool_decide ("SQLALCHEMY_TIMESCALE_URI" ∉ dom config) then
    (SystemExit (-1),
     [BootCritical (service_not_defined "Timescale"); BootSleep ERROR_RETRY_DELAY])
  else (Proceeds, []).

(** The store handles of [self]; a handle is a number. *)
Record Stores : Type := mkStores {
  ls : option nat;
  redis_listenstore : option nat
}.

Global Instance Stores_eq_dec : EqDecision Stores.
Proof. solve_decision. Defined.

(** One attempt to reach a store: it answers, or it raises an exception
    ([except Exception] takes every one of them) of which the loop reads
    [str(err)] only. *)
Inductive store_answer (A : Type) : Type :=
| Reached (a : A)
| Unreachable (str_err : string).
Arguments Reached {A} a.
Arguments Unreachable {A} str_err.

(** Lines 231-238. [script] lists what successive reads of
    [timescale_connection._ts] do. *)
Fixpoint timescale_wait (script : list (store_answer nat)) (st : Stores)
  : boot_result * Stores * list boot_event :=
  match script with
  | [] => (Waiting, st, [])
  | Reached ts :: _ => (Proceeds, mkStores (Some ts) (redis_listenstore st), [])
  | Unreachable str_err :: script =>
      match timescale_wait script st with
      | (r, st', t) =>
          (r, st',
           BootError ("Cannot connect to timescale: " +:+ str_err
                      +:+ ". Retrying in 2 seconds and trying again.")
           :: BootSleep ERROR_RETRY_DELAY :: t)
      end
  end.

(** Lines 240-248. [script] lists what successive calls of [cache._r.ping()]
    do; [redis] is the value of [redis_connection._redis]. *)
Fixpoint redis_wait (script : list (store_answer unit)) (redis : nat) (st : Stores)
  : boot_result * Stores * list boot_event :=
  match script with
  | [] => (Waiting, st, [])
  | Reached _ :: _ => (Proceeds, mkStores (ls st) (Some redis), [BootPing])
  | Unreachable str_err :: script =>
      match redis_wait script redis st with
      | (r, st', t) =>
          (r, st',
           BootPing
           :: BootError ("Cannot connect to redis: " +:+ str_err
                         +:+ ". Retrying in 2 seconds and trying again.")
           :: BootSleep ERROR_RETRY_DELAY :: t)
      end
  end.

(** The two waits in a row, as [start] runs them. *)
Definition wait_for_stores (ts_script : list (store_answer nat))
  (ping_script : list (store_answer unit)) (redis : nat) (st : Stores)
  : boot_result * Stores * list boot_event :=
  match timescale_wait ts_script st with
  | (Proceeds, st1, t1) =>
      match redis_wait ping_script redis st1 with
      | (r, st2, t2) => (r, st2, t1 ++ t2)
      end
  | other => other
  end.

(** * Vocabulary of the statements *)

(** ** Observations on a trace *)

Definition count_events (p : event → bool) (t : list event) : nat :=
  length (List.filter p t).

Definition is_ack (e : event) : bool :=
  match e with EvAck _ _ _ => true | _ => false end.
Definition is_delivered_ack (delivery_tag : nat) (e : event) : bool :=
  match e with EvAck _ tag true => bool_decide (tag = delivery_tag) | _ => false end.
Definition is_publish (e : event) : bool :=
  match e with EvPublish _ _ _ => true | _ => false end.

(** [basic_ack] calls made, acknowledgments of the message [delivery_tag]
    the broker took, [basic_publish] calls made. *)
Definition ack_calls (t : list event) : nat := count_events is_ack t.
Definition acks_delivered (delivery_tag : nat) (t : list event) : nat :=
  count_events (is_delivered_ack delivery_tag) t.
Definition publish_calls (t : list event) : nat := count_events is_publish t.

Definition metrics_of (e : event) : option (Z * Z) :=
  match e with EvMetricsSet incoming unique => Some (incoming, unique) | _ => None end.

(** The totals handed to [metrics.set], in order. *)
Definition flushes (t : list event) : list (Z * Z) := omap metrics_of t.

Definition is_clock_or_metrics (e : event) : bool :=
  match e with EvMonotonic | EvMetricsSet _ _ => true | _ => false end.

(** The events a computation can emit, and the fields of [self] it leaves
    alone. *)
Definition emits {A} (P : event → Prop) (m : M A) : Prop := ∀ s, Forall P (m s).2.
Definition keeps {A B} (f : Self → B) (m : M A) : Prop := ∀ s, f (m s).1.2 = f s.

(** ** Retry loops *)

(** [k] answers [ConnectionClosed] in a row. *)
Definition closed (k : nat) : list (option exn) := replicate k (Some ConnectionClosed).

(** [self] after [k] reconnects, and the calls a loop makes while the broker
    keeps answering [ConnectionClosed]. *)
Fixpoint reconnected (w : World) (k : nat) (s : Self) : Self :=
  match k with
  | O => s
  | S k => reconnected w k (set_connection (Some (utils_connect_to_rabbitmq w (connection s))) s)
  end.

Fixpoint retry_trace (w : World) (attempt : event) (k : nat) (c : option Connection)
  : list event :=
  match k with
  | O => []
  | S k =>
      let c' := utils_connect_to_rabbitmq w c in
      attempt :: EvConnect c' :: retry_trace w attempt k (Some c')
  end.

(** A channel is fresh when it was opened on the connection [self] holds. *)
Definition fresh_channel (s : Self) (ch : Channel) : Prop :=
  connection s = Some (opened_on ch).

(** ** Insertion *)

Definition counted (n : Z) (s : Self) : Self :=
  set_incoming_listens (incoming_listens s + n) s.

Definition increment_events (w : World) (rows_inserted : list Row) : list event :=
  EvIncrementDay (len rows_inserted) ::
  match increment_listen_count_for_day w with
  | Some _ => [EvLogError "Could not update listen count per day in redis"]
  | None => []
  end.

(** [self] after lines 217-220. *)
Definition flushed (s : Self) : Self :=
  set_unique_listens 0
    (set_incoming_listens 0
       (set_metric_submission_time (metric_submission_time s + METRIC_UPDATE_INTERVAL) s)).

(** The calls of a batch up to the publish that goes through after [k]
    closed connections. *)
Definition publish_trace (w : World) (s : Self) (data : list Listen) (rows : list Row)
  (k : nat) : list event :=
  (EvInsert data :: increment_events w rows)
  ++ retry_trace w (EvPublish (unique_ch s) (compute_unique data rows) false) k (connection s)
  ++ [EvPublish (unique_ch s) (compute_unique data rows) true].

(** The unique subset of a batch: what line 188-196 select from the rows the
    storage reports (nothing when the insert raises). *)
Definition batch_unique (w : World) (data : list Listen) : list Listen :=
  match ls_insert w data with
  | Ok rows_inserted => compute_unique data rows_inserted
  | Raises _ => []
  end.

(** Batches handled one after the other, as long as each one is processed
    (returns a count). *)
Fixpoint insert_batches (batches : list (World * list Listen)) (s : Self)
  : option (Self * list event) :=
  match batches with
  | [] => Some (s, [])
  | (w, data) :: rest =>
      match insert_to_listenstore w data s with
      | (Returned r, s1, t1) =>
          if bool_decide (r = LISTEN_INSERT_ERROR_SENTINEL) then None else
          match insert_batches rest s1 with
          | Some (s2, t2) => Some (s2, t1 ++ t2)
          | None => None
          end
      | _ => None
      end
  end.

Definition total (l : list Z) : Z := foldr Z.add 0 l.

(** Submitted and unique counts of a run of batches, and the totals a trace
    handed to [metrics.set]. *)
Definition submitted_total (batches : list (World * list Listen)) : Z :=
  total ((λ b, len b.2) <$> batches).
Definition unique_total (batches : list (World * list Listen)) : Z :=
  total ((λ b, len (batch_unique b.1 b.2)) <$> batches).
Definition emitted_incoming (t : list event) : Z := total (fst <$> flushes t).
Definition emitted_unique (t : list event) : Z := total (snd <$> flushes t).

(** The broker takes a publish: the first answer of the script that is not
    a closed connection is a call that goes through. *)
Fixpoint taken (script : list (option exn)) : bool :=
  match script with
  | [] => false
  | None :: _ => true
  | Some e :: rest => is_ConnectionClosed e && taken rest
  end.

(** A call gets as far as the deadline check of line 216: its unique subset
    is not empty (lines 168-199), the broker takes the publish (lines
    201-211) and the recent-listens cache is updated (line 213). *)
Definition reaches_deadline_check (w : World) (data : list Listen) : bool :=
  bool_decide (batch_unique w data ≠ [])
  && taken (publish_script w)
  && went_through (update_recent_listens w).

(** The call flushes: it reaches the check with the clock strictly past the
    deadline [self] holds. *)
Definition flush_due (w : World) (data : list Listen) (s : Self) : bool :=
  reaches_deadline_check w data
  && bool_decide (monotonic w > metric_submission_time s).

(** What the call adds to [unique_listens]. *)
Definition unique_counted (w : World) (data : list Listen) : Z :=
  if reaches_deadline_check w data then len (batch_unique w data) else 0.

(** Selection by the composite key as a triple, and by the joined string. *)
Definition triple_matched (data : list Listen) (rows_inserted : list Row) : list Listen :=
  filter (λ l, listen_triple l ∈ rows_inserted) data.

Definition key_matched (data : list Listen) (rows_inserted : list Row) : list Listen :=
  filter (λ l, listen_key l ∈ row_key <$> rows_inserted) data.

(** A string without the hyphen that joins the key. *)
Fixpoint no_dash (s : string) : bool :=
  match s with
  | EmptyString => true
  | String c s => negb (Ascii.eqb c "-"%char) && no_dash s
  end.

(** ** Enrichment *)

(** Lines 139-151 for one record and its response. *)
Definition augment_pair (p : RawRecord * gmap string jval) : option RawRecord :=
  match p.2 !! "recording_msid", p.2 !! "artist_msid" with
  | Some r, Some a => Some (augment p.1 p.2 r a)
  | _, _ => None
  end.

(** One sub-batch, all or nothing: the augmented records when the lookup
    answers and every zipped response has both identifiers, else nothing. *)
Definition chunk_enriched (w : World) (call_no : nat) (chunk : list RawRecord)
  : list RawRecord :=
  match submit_listens w call_no (messy_dict_of <$> chunk) with
  | Ok payload => default [] (mapM augment_pair (zip chunk payload))
  | Raises _ => []
  end.

(** One sub-batch, record by record: only the records whose response lacks
    an identifier are left out. *)
Definition chunk_enriched_per_record (w : World) (call_no : nat) (chunk : list RawRecord)
  : list RawRecord :=
  match submit_listens w call_no (messy_dict_of <$> chunk) with
  | Ok payload => omap augment_pair (zip chunk payload)
  | Raises _ => []
  end.

Definition lookup_events (w : World) (call_no : nat) (chunk : list RawRecord) : list event :=
  let request := messy_dict_of <$> chunk in
  EvLookup request ::
  match submit_listens w call_no request with
  | Ok payload =>
      match mapM augment_pair (zip chunk payload) with
      | Some _ => []
      | None => [EvLogError "MessyBrainz did not return a proper set of ids"]
      end
  | Raises _ => [EvLogError "MessyBrainz lookup for listens failed: "]
  end.

(** ** Parsing *)

Definition parsed (from_json : RawRecord → answer Listen) (r : RawRecord) : option Listen :=
  match from_json r with Ok l => Some l | Raises _ => None end.

(** How many records of [msb_listens] the conversion rejects. *)
Definition drops (from_json : RawRecord → answer Listen) (msb_listens : list RawRecord) : nat :=
  length (filter (λ r, parsed from_json r = None) msb_listens).

(** A drop is counted when parsing leaves a mark: a field of [self] changes
    or an event is emitted. *)
Definition drops_are_counted (from_json : RawRecord → answer Listen) : Prop :=
  ∀ msb_listens s,
    (0 < drops from_json msb_listens)%nat →
    (parse_listens from_json msb_listens [] s).1.2 ≠ s
    ∨ (parse_listens from_json msb_listens [] s).2 ≠ [].

(** ** Further observations *)

(** The keys a lookup request can carry (lines 104-122). *)
Definition request_keys : gset string :=
  {[ "artist"; "title"; "release"; "artist_mbids"; "release_mbid";
     "recording_mbid"; "track_number"; "spotify_id" ]}.

(** The requests of the lookup calls of a trace, in order. *)
Definition lookup_requests (t : list event) : list (list (gmap string jval)) :=
  omap (λ e, match e with EvLookup request => Some request | _ => None end) t.

(** A response that carries both mandatory identifiers. *)
Definition has_both_ids (ids : gmap string jval) : Prop :=
  is_Some (ids !! "recording_msid") ∧ is_Some (ids !! "artist_msid").

Definition is_insert (e : event) : bool :=
  match e with EvInsert _ => true | _ => false end.

(** An event of the acknowledgment phase: a [basic_ack] call or the
    reconnect that follows a closed connection. *)
Definition is_ack_or_connect (e : event) : bool :=
  match e with EvAck _ _ _ | EvConnect _ => true | _ => false end.

(** The counts handed to [increment_listen_count_for_day], in order. *)
Definition day_increments (t : list event) : list Z :=
  omap (λ e, match e with EvIncrementDay n => Some n | _ => None end) t.

(** The counters of [self] are in order: both are counts, and no more
    Listens were found unique than were submitted. *)
Definition counters_ok (s : Self) : Prop :=
  0 ≤ unique_listens s ≤ incoming_listens s.

(** The calls of a batch up to and including [k] publishes answered by
    [ConnectionClosed]. *)
Definition attempts_trace (w : World) (s : Self) (data : list Listen) (rows : list Row)
  (k : nat) : list event :=
  (EvInsert data :: increment_events w rows)
  ++ retry_trace w (EvPublish (unique_ch s) (compute_unique data rows) false) k (connection s).

(** [self] once the unique subset of a batch is published and counted. *)
Definition published (w : World) (s : Self) (data : list Listen) (rows : list Row)
  (k : nat) : Self :=
  set_unique_listens (unique_listens s + len (compute_unique data rows))
    (reconnected w k (counted (len data) s)).

(** The ways through [insert_to_listenstore], one constructor per exit of the
    method (lines 168-222): the result, [self] afterwards and the calls made. *)
Inductive insert_path (w : World) (data : list Listen) (s : Self)
  : result Z → Self → list event → Prop :=
| path_empty :
    data = [] →
    insert_path w data s (Returned 0) s []
| path_transient err :
    data ≠ [] → ls_insert w data = Raises (OperationalError err) →
    insert_path w data s (Returned LISTEN_INSERT_ERROR_SENTINEL) (counted (len data) s)
      [EvInsert data;
       EvLogError ("Cannot write data to listenstore: " +:+ err +:+ ". Sleep.");
       EvSleep ERROR_RETRY_DELAY]
| path_insert_raises e :
    data ≠ [] → ls_insert w data = Raises e → is_OperationalError e = false →
    insert_path w data s (Raised e) (counted (len data) s) [EvInsert data]
| path_no_rows :
    data ≠ [] → ls_insert w data = Ok [] →
    insert_path w data s (Returned (len data)) (counted (len data) s) [EvInsert data]
| path_no_unique rows :
    data ≠ [] → ls_insert w data = Ok rows → rows ≠ [] →
    compute_unique data rows = [] →
    insert_path w data s (Returned (len data)) (counted (len data) s)
      (EvInsert data :: increment_events w rows)
| path_retrying rows k :
    data ≠ [] → ls_insert w data = Ok rows → rows ≠ [] →
    compute_unique data rows ≠ [] →
    publish_script w = closed k →
    insert_path w data s Retrying (reconnected w k (counted (len data) s))
      (attempts_trace w s data rows k)
| path_publish_raises rows k e rest :
    data ≠ [] → ls_insert w data = Ok rows → rows ≠ [] →
    compute_unique data rows ≠ [] →
    publish_script w = closed k ++ Some e :: rest → is_ConnectionClosed e = false →
    insert_path w data s (Raised e) (reconnected w k (counted (len data) s))
      (attempts_trace w s data rows k
       ++ [EvPublish (unique_ch s) (compute_unique data rows) false])
| path_recent_raises rows k rest e :
    data ≠ [] → ls_insert w data = Ok rows → rows ≠ [] →
    compute_unique data rows ≠ [] →
    publish_script w = closed k ++ None :: rest →
    update_recent_listens w = Some e →
    insert_path w data s (Raised e) (reconnected w k (counted (len data) s))
      (publish_trace w s data rows k ++ [EvUpdateRecent (compute_unique data rows)])
| path_flushed rows k rest :
    data ≠ [] → ls_insert w data = Ok rows → rows ≠ [] →
    compute_unique data rows ≠ [] →
    publish_script w = closed k ++ None :: rest →
    update_recent_listens w = None →
    monotonic w > metric_submission_time s →
    insert_path w data s (Returned (len data)) (flushed (published w s data rows k))
      (publish_trace w s data rows k
       ++ [EvUpdateRecent (compute_unique data rows); EvMonotonic;
           EvMetricsSet (incoming_listens s + len data)
             (unique_listens s + len (compute_unique data rows))])
| path_not_due rows k rest :
    data ≠ [] → ls_insert w data = Ok rows → rows ≠ [] →
    compute_unique data rows ≠ [] →
    publish_script w = closed k ++ None :: rest →
    update_recent_listens w = None →
    ¬ monotonic w > metric_submission_time s →
    insert_path w data s (Returned (len data)) (published w s data rows k)
      (publish_trace w s data rows k
       ++ [EvUpdateRecent (compute_unique data rows); EvMonotonic]).

(** The configuration keys the check asks for, with the service each one
    stands for, in the order of the checks. *)
Definition required_hosts : list (string * string) :=
  [("REDIS_HOST", "Redis"); ("RABBITMQ_HOST", "RabbitMQ");
   ("SQLALCHEMY_TIMESCALE_URI", "Timescale")].

Definition slept (t : list boot_event) : Z :=
  total (omap (λ e, match e with BootSleep n => Some n | _ => None end) t).

Definition errors_logged (t : list boot_event) : list string :=
  omap (λ e, match e with BootError msg => Some msg | _ => None end) t.

Definition pings (t : list boot_event) : nat :=
  length (filter (λ e, e = BootPing) t).

(** An error record of a wait that tells the reader the next attempt comes
    in two seconds. *)
Definition announces_two_seconds (msg : string) : Prop :=
  ∃ what, msg = what +:+ ". Retrying in 2 seconds and trying again.".

(** * Sample data *)

Definition tm (track : string) : TrackMetadata :=
  mkTrackMetadata "artist" track None None.


Definition colliding_listen : Listen := mkListen 1 "c" (tm "a-b").
Definition colliding_row : Row := (1, "a", "b-c").

Definition raw (track user : string) (ts : Z) : RawRecord :=
  mkRawRecord (tm track) (<["listened_at" := JNum ts]> (<["user_name" := JStr user]> ∅)).

(** A record whose [listened_at] is not a number. *)
Definition malformed_raw : RawRecord :=
  mkRawRecord (tm "t") (<["listened_at" := JStr "yesterday"]> ∅).

Definition full_ids : gmap string jval :=
  <["recording_msid" := JStr "rec"]> (<["artist_msid" := JStr "art"]> ∅).

(** A response without [artist_msid]. *)
Definition partial_ids : gmap string jval :=
  <["recording_msid" := JStr "rec"]> ∅.

(** Modelled from the spec: [Listen.from_json] is not among the sources. A
    Listen owns a timestamp, a user identifier and the metadata mapping, and
    its construction fails when a required field is malformed or missing:
    here a [listened_at] that is a string is a [ValueError]. *)
Definition sample_from_json (r : RawRecord) : answer Listen :=
  match fields r !! "listened_at" with
  | Some (JNum ts) =>
      Ok (mkListen ts
            match fields r !! "user_name" with Some (JStr u) => u | _ => "" end
            (track_metadata r))
  | Some (JStr _) => Raises ValueError
  | Some (JList _) => Raises (OtherError "TypeError")
  | None => Raises (OtherError "KeyError")
  end.

(** A world in which the lookup resolves every record, the storage answers
    [stored], and the other collaborators do what the arguments say. *)
Definition world (stored : list Listen → answer (list Row))
  (increment : option exn) (publish : list (option exn)) (recent : option exn)
  (now : Z) (ack : list (option exn)) : World :=
  mkWorld (λ _ request, Ok ((λ _, full_ids) <$> request)) stored increment publish
          (λ c, S (default O c)) recent now ack.

(** Every submitted row is new. *)
Definition all_new (data : list Listen) : answer (list Row) := Ok (listen_triple <$> data).

Definition quiet_world : World := world all_new None [None] None 0 [None].

(** The second response of every lookup lacks [artist_msid]. *)
Definition partial_world : World :=
  mkWorld (λ _ request, Ok (take (length request) [full_ids; partial_ids]))
          all_new None [None] (λ c, S (default O c)) None 0 [None].

Definition s0 : Self := mkSelf (Some O) (mkChannel O) (mkChannel O) 0 0 60.

Definition listen1 : Listen := mkListen 100 "alice" (tm "song").
Definition listen2 : Listen := mkListen 200 "bob" (tm "tune").

(** The recent-activity cache is down. *)
Definition recent_failure_world : World :=
  world all_new None [None] (Some (OtherError "redis.exceptions.ConnectionError")) 0 [None].

(** The per-day counter is down. *)
Definition increment_failure_world : World :=
  world all_new (Some (OtherError "redis.exceptions.ConnectionError")) [None] None 0 [None].

(** The broker closes the connection under the first publish. *)
Definition closed_once_world : World :=
  world all_new None [Some ConnectionClosed; None] None 0 [None].

(** The same world with another answer of the per-day counter. *)
Definition with_increment (a : option exn) (w : World) : World :=
  mkWorld (submit_listens w) (ls_insert w) a (publish_script w)
          (utils_connect_to_rabbitmq w) (update_recent_listens w) (monotonic w)
          (ack_script w).

(** The clock is past the deadline of [s0]. *)
Definition late_world : World := world all_new None [None] None 1000 [None].

(** The storage reports no new row, and the clock is past the deadline. *)
Definition none_new_world : World :=
  world (λ _, Ok []) None [None] None 1000 [None].

(** The storage is unreachable. *)
Definition down_world : World :=
  world (λ _, Raises (OperationalError "connection refused")) None [None] None 0 [None].

(** The value of a run that returned. *)
Definition returned {A} (d : A) (r : result A) : A :=
  match r with Returned a => a | _ => d end.

(** The twin of [colliding_listen]: another track and user, the same joined
    key. *)
Definition colliding_twin : Listen := mkListen 1 "b-c" (tm "a").

(** The lookup service rejects every request. *)
Definition rejecting_world : World :=
  mkWorld (λ _ _, Raises BadDataException) all_new None [None]
          (λ c, S (default O c)) None 0 [None].

(** The lookup service fails with an exception [messybrainz_lookup] does not
    handle. *)
Definition crashing_world : World :=
  mkWorld (λ _ _, Raises (OtherError "KeyError")) all_new None [None]
          (λ c, S (default O c)) None 0 [None].

(** The lookup service answers for the first record of a request only. *)
Definition short_world : World :=
  mkWorld (λ _ request, Ok (take 1 ((λ _, full_ids) <$> request))) all_new None [None]
          (λ c, S (default O c)) None 0 [None].

(** * Properties *)

Ltac munfold :=
  unfold bind, ret, emit, raise, retrying, get, modify, try_except, call,
    call_unit, log_error, connect_to_rabbitmq.

(** ** What a computation emits *)

Section Emits.
Context (P : event → Prop).

Lemma emits_ret {A} (a : A) : emits P (ret a).
Proof. intros s. constructor. Qed.

Lemma emits_raise {A} e : emits P (@raise A e).
Proof. intros s. constructor. Qed.

Lemma emits_retrying {A} : emits P (@retrying A).
Proof. intros s. constructor. Qed.

Lemma emits_get {A} (f : Self → A) : emits P (get f).
Proof. intros s. constructor. Qed.

Lemma emits_modify f : emits P (modify f).
Proof. intros s. constructor. Qed.

Lemma emits_emit e : P e → emits P (emit e).
Proof. intros H s. repeat constructor. exact H. Qed.

Lemma emits_bind {A B} (m : M A) (k : A → M B) :
  emits P m → (∀ a, emits P (k a)) → emits P (bind m k).
Proof.
  intros Hm Hk s. unfold bind. specialize (Hm s).
  destruct (m s) as [[[a|e|] s1] t1]; simpl in *; try exact Hm.
  specialize (Hk a s1). destruct (k a s1) as [[r s2] t2]; simpl in *.
  apply Forall_app; auto.
Qed.

Lemma emits_try_except {A} (m : M A) handles h :
  emits P m → (∀ e, emits P (h e)) → emits P (try_except m handles h).
Proof.
  intros Hm Hh s. unfold try_except. specialize (Hm s).
  destruct (m s) as [[[a|e|] s1] t1]; simpl in *; try exact Hm.
  destruct (handles e); simpl; try exact Hm.
  specialize (Hh e s1). destruct (h e s1) as [[r s2] t2]; simpl in *.
  apply Forall_app; auto.
Qed.

Lemma emits_log_error msg : P (EvLogError msg) → emits P (log_error msg).
Proof. apply emits_emit. Qed.

Lemma emits_call {A} e (a : answer A) : P e → emits P (call e a).
Proof.
  intros H. unfold call. apply emits_bind; [by apply emits_emit|].
  intros _. destruct a; [apply emits_ret | apply emits_raise].
Qed.

Lemma emits_call_unit e a : P e → emits P (call_unit e a).
Proof.
  intros H. unfold call_unit. apply emits_bind; [by apply emits_emit|].
  intros _. destruct a; [apply emits_raise | apply emits_ret].
Qed.

Lemma emits_connect w : (∀ c, P (EvConnect c)) → emits P (connect_to_rabbitmq w).
Proof.
  intros H. unfold connect_to_rabbitmq. apply emits_bind; [apply emits_get|].
  intros c. apply emits_bind; [apply emits_emit, H | intros; apply emits_modify].
Qed.
End Emits.

Create HintDb emits.
#[export] Hint Resolve emits_ret emits_raise emits_retrying emits_get emits_modify
  emits_emit emits_bind emits_try_except emits_log_error emits_call emits_call_unit
  emits_connect : emits.

(** ** What a computation leaves alone *)

Section Keeps.
Context {B} (f : Self → B).

Lemma keeps_ret {A} (a : A) : keeps f (ret a).
Proof. by intros s. Qed.

Lemma keeps_raise {A} e : keeps f (@raise A e).
Proof. by intros s. Qed.

Lemma keeps_retrying {A} : keeps f (@retrying A).
Proof. by intros s. Qed.

Lemma keeps_get {A} (g : Self → A) : keeps f (get g).
Proof. by intros s. Qed.

Lemma keeps_emit e : keeps f (emit e).
Proof. by intros s. Qed.

Lemma keeps_modify g : (∀ s, f (g s) = f s) → keeps f (modify g).
Proof. intros H s. apply H. Qed.

Lemma keeps_bind {A C} (m : M A) (k : A → M C) :
  keeps f m → (∀ a, keeps f (k a)) → keeps f (bind m k).
Proof.
  intros Hm Hk s. unfold bind. specialize (Hm s).
  destruct (m s) as [[[a|e|] s1] t1]; simpl in *; try exact Hm.
  specialize (Hk a s1). destruct (k a s1) as [[r s2] t2]; simpl in *. congruence.
Qed.

Lemma keeps_try_except {A} (m : M A) handles h :
  keeps f m → (∀ e, keeps f (h e)) → keeps f (try_except m handles h).
Proof.
  intros Hm Hh s. unfold try_except. specialize (Hm s).
  destruct (m s) as [[[a|e|] s1] t1]; simpl in *; try exact Hm.
  destruct (handles e); simpl; try exact Hm.
  specialize (Hh e s1). destruct (h e s1) as [[r s2] t2]; simpl in *. congruence.
Qed.

Lemma keeps_log_error msg : keeps f (log_error msg).
Proof. by intros s. Qed.

Lemma keeps_call {A} e (a : answer A) : keeps f (call e a).
Proof. intros s. unfold call. munfold. by destruct a. Qed.

Lemma keeps_call_unit e a : keeps f (call_unit e a).
Proof. intros s. unfold call_unit. munfold. by destruct a. Qed.

Lemma keeps_connect w :
  (∀ c s, f (set_connection c s) = f s) → keeps f (connect_to_rabbitmq w).
Proof. intros H s. unfold connect_to_rabbitmq. munfold. simpl. apply H. Qed.
End Keeps.

Create HintDb keeps.
#[export] Hint Resolve keeps_ret keeps_raise keeps_retrying keeps_get keeps_emit
  keeps_modify keeps_bind keeps_try_except keeps_log_error keeps_call keeps_call_unit
  keeps_connect : keeps.

(** [bind] is associative, pointwise. *)
Lemma bind_assoc {A B C} (m : M A) (f : A → M B) (g : B → M C) s :
  bind (bind m f) g s = bind m (λ a, bind (f a) g) s.
Proof.
  unfold bind. destruct (m s) as [[[a|e|] s1] t1]; try done.
  destruct (f a s1) as [[[b|e|] s2] t2]; try done.
  destruct (g b s2) as [[r s3] t3]. by rewrite app_assoc.
Qed.

(** ** Counting events *)

Lemma count_events_app p t1 t2 :
  count_events p (t1 ++ t2) = (count_events p t1 + count_events p t2)%nat.
Proof. unfold count_events. by rewrite List.filter_app, length_app. Qed.

Lemma count_events_cons p e t :
  count_events p (e :: t) = ((if p e then 1 else 0) + count_events p t)%nat.
Proof. unfold count_events. simpl. by destruct (p e). Qed.

Lemma count_events_none p t : Forall (λ e, p e = false) t → count_events p t = O.
Proof.
  unfold count_events. induction 1 as [|e t He _ IH]; simpl; [done|]. by rewrite He.
Qed.

Lemma flushes_app t1 t2 : flushes (t1 ++ t2) = flushes t1 ++ flushes t2.
Proof. apply omap_app. Qed.

Lemma flushes_none t : Forall (λ e, is_clock_or_metrics e = false) t → flushes t = [].
Proof.
  unfold flushes. induction 1 as [|e t He _ IH]; [done|].
  destruct e; simpl in *; done.
Qed.

Lemma no_clock_or_metrics t e :
  Forall (λ e, is_clock_or_metrics e = false) t → is_clock_or_metrics e = true → e ∉ t.
Proof.
  intros Ht He Hin. rewrite Forall_forall in Ht. specialize (Ht e Hin). congruence.
Qed.

(** ** The reconciliation by joined keys *)

Lemma build_index_lookup rows m k :
  is_Some (build_index rows m !! k) ↔ is_Some (m !! k) ∨ k ∈ row_key <$> rows.
Proof.
  revert m. induction rows as [|r rows IH]; intros m; simpl.
  - rewrite elem_of_nil. tauto.
  - rewrite IH, lookup_insert_is_Some, elem_of_cons.
    destruct (decide (row_key r = k)) as [->|]; intuition congruence.
Qed.

Lemma select_unique_filter idx data acc :
  select_unique idx data acc = acc ++ filter (λ l, is_Some (idx !! listen_key l)) data.
Proof.
  revert acc. induction data as [|l data IH]; intros acc; simpl.
  - by rewrite app_nil_r.
  - rewrite filter_cons. destruct (idx !! listen_key l) eqn:E.
    + rewrite decide_True by eauto. rewrite IH. by rewrite <- app_assoc.
    + rewrite decide_False; [apply IH|]. intros [? ?]; congruence.
Qed.

Lemma compute_unique_key_matched data rows :
  compute_unique data rows = key_matched data rows.
Proof.
  unfold compute_unique, key_matched. rewrite select_unique_filter. simpl.
  apply list_filter_iff. intros l. rewrite build_index_lookup, lookup_empty.
  split; [intros [[? ?]|?]; done | auto].
Qed.

Lemma compute_unique_no_rows data : compute_unique data [] = [].
Proof.
  rewrite compute_unique_key_matched. unfold key_matched.
  induction data as [|l data IH]; [done|].
  rewrite filter_cons, decide_False; [done|]. simpl. apply not_elem_of_nil.
Qed.

Lemma triple_key l r : listen_triple l = r → row_key r = listen_key l.
Proof. by intros <-. Qed.

(** *** When the joined key determines the triple *)

Lemma string_app_cons c a s : String c a +:+ s = String c (a +:+ s).
Proof. reflexivity. Qed.

Lemma string_app_nil s : "" +:+ s = s.
Proof. reflexivity. Qed.

Lemma split_at_dash a b x y :
  no_dash a = true → no_dash b = true →
  a +:+ "-" +:+ x = b +:+ "-" +:+ y → a = b ∧ x = y.
Proof.
  revert b. induction a as [|c a IH]; intros [|d b] Ha Hb H;
    rewrite ?string_app_cons, ?string_app_nil in H; simpl in Ha, Hb.
  - by simplify_eq.
  - injection H as <- _. done.
  - injection H as -> _. done.
  - apply andb_true_iff in Ha as [_ Ha]. apply andb_true_iff in Hb as [_ Hb].
    injection H as -> H. destruct (IH b Ha Hb H) as [-> ->]. done.
Qed.

Lemma pretty_N_char_no_dash x : Ascii.eqb (pretty_N_char x) "-"%char = false.
Proof. unfold pretty_N_char. by repeat case_match. Qed.

Lemma pretty_N_go_no_dash x s : no_dash s = true → no_dash (pretty_N_go x s) = true.
Proof.
  revert s. induction (N.lt_wf_0 x) as [x _ IH]; intros s Hs.
  assert (x = 0 ∨ 0 < x)%N as [->|?] by lia; [by rewrite pretty_N_go_0|].
  rewrite pretty_N_go_step by done. apply IH; [by apply N.div_lt|].
  simpl. by rewrite pretty_N_char_no_dash.
Qed.

Lemma pretty_N_go_length x s :
  (String.length s ≤ String.length (pretty_N_go x s))%nat.
Proof.
  revert s. induction (N.lt_wf_0 x) as [x _ IH]; intros s.
  assert (x = 0 ∨ 0 < x)%N as [->|?] by lia; [by rewrite pretty_N_go_0|].
  rewrite pretty_N_go_step by done.
  etrans; [|by eapply IH, N.div_lt]. simpl. lia.
Qed.

(** The decimal of a natural number: digits only, at least one. *)
Lemma pretty_N_digits (x : N) :
  no_dash (pretty x) = true ∧ pretty x ≠ "".
Proof.
  unfold pretty, pretty_N. case_decide as Hx; [done|]. split.
  - by apply pretty_N_go_no_dash.
  - assert (0 < x)%N as Hpos by lia. rewrite pretty_N_go_step by done.
    intros Hempty.
    pose proof (pretty_N_go_length (x `div` 10)
                  (String (pretty_N_char (x `mod` 10)) "")) as Hlen.
    rewrite Hempty in Hlen. simpl in Hlen. lia.
Qed.

Lemma digits_then_dash a x p y :
  no_dash a = true → a ≠ "" → a +:+ "-" +:+ x ≠ ("-" +:+ p) +:+ "-" +:+ y.
Proof.
  intros Ha Hne H. destruct a as [|c a]; [done|].
  rewrite !string_app_cons, ?string_app_nil in H. simpl in Ha.
  injection H as -> _. done.
Qed.

(** ['%d-...'] determines the integer and the rest. *)
Lemma pretty_Z_then_dash (z1 z2 : Z) x y :
  pretty z1 +:+ "-" +:+ x = pretty z2 +:+ "-" +:+ y → z1 = z2 ∧ x = y.
Proof.
  assert (Hpos : ∀ p : positive, no_dash (pretty p) = true ∧ pretty p ≠ "")
    by (intros p; apply (pretty_N_digits (Npos p))).
  assert (Hnn : ∀ z, 0 ≤ z → no_dash (pretty z) = true ∧ pretty z ≠ "").
  { intros [|p|p] Hz; [done|apply Hpos|lia]. }
  assert (Hneg : ∀ p, pretty (Zneg p) = "-" +:+ pretty p) by done.
  destruct (decide (0 ≤ z1)) as [H1|H1], (decide (0 ≤ z2)) as [H2|H2].
  - destruct (Hnn z1 H1) as [Ha _], (Hnn z2 H2) as [Hb _]. intros H.
    destruct (split_at_dash _ _ _ _ Ha Hb H) as [Hp ->].
    by apply (inj pretty) in Hp.
  - destruct z2 as [|p|p]; try lia. rewrite Hneg. intros H.
    destruct (Hnn z1 H1) as [Ha Hne]. by apply digits_then_dash in H.
  - destruct z1 as [|p|p]; try lia. rewrite Hneg. intros H. symmetry in H.
    destruct (Hnn z2 H2) as [Ha Hne]. by apply digits_then_dash in H.
  - destruct z1 as [|p|p], z2 as [|q|q]; try lia. rewrite !Hneg. intros H.
    simpl in H. injection H as H.
    destruct (Hpos p) as [Ha _], (Hpos q) as [Hb _].
    destruct (split_at_dash _ _ _ _ Ha Hb H) as [Hp ->].
    apply (inj pretty) in Hp. by subst.
Qed.

Lemma format_key_inj ts1 t1 u1 ts2 t2 u2 :
  no_dash t1 = true → no_dash t2 = true →
  format_key ts1 t1 u1 = format_key ts2 t2 u2 → ts1 = ts2 ∧ t1 = t2 ∧ u1 = u2.
Proof.
  unfold format_key. intros Ht1 Ht2 H.
  apply pretty_Z_then_dash in H as [-> H].
  apply split_at_dash in H as [-> ->]; done.
Qed.

(** Without a hyphen in any track name, submitted or reported, the joined
    keys select what the triples select. *)
Lemma key_matched_triple_matched listens rows :
  Forall (λ l, no_dash (track_name (data l)) = true) listens →
  Forall (λ r : Row, no_dash r.1.2 = true) rows →
  key_matched listens rows = triple_matched listens rows.
Proof.
  intros Hd Hr. unfold key_matched, triple_matched.
  induction Hd as [|l listens Hl _ IH]; [done|].
  rewrite !filter_cons, IH.
  assert (listen_key l ∈ row_key <$> rows ↔ listen_triple l ∈ rows) as Hiff.
  { split.
    - intros (r & Hk & Hin)%list_elem_of_fmap.
      rewrite Forall_forall in Hr. specialize (Hr r Hin).
      destruct r as [[ts t] u]. unfold listen_key, row_key in Hk. simpl in *.
      apply format_key_inj in Hk as (? & ? & ?); [|done..].
      unfold listen_triple. by simplify_eq.
    - intros Hin. apply list_elem_of_fmap. exists (listen_triple l). split; [|done].
      symmetry. by apply triple_key. }
  destruct (decide (listen_key l ∈ row_key <$> rows)) as [Hk|Hk].
  - rewrite decide_True by by apply Hiff. done.
  - rewrite decide_False by (by rewrite <- Hiff). done.
Qed.

Lemma key_matched_perm data data' rows rows' :
  data ≡ₚ data' → rows ≡ₚ rows' → key_matched data rows ≡ₚ key_matched data' rows'.
Proof.
  intros Hd Hr. unfold key_matched. rewrite Hd.
  erewrite list_filter_iff; [done|]. intros l; simpl. by rewrite Hr.
Qed.

(** C2, as the code has it: the unique subset is a sublist of the input and
    is exactly the input Listens whose joined key string ['%d-%s-%s'] equals
    the joined key of a reported row; every Listen whose triple is reported
    is among them; the selection does not depend on the order of the input
    or of the rows; when the reported keys match exactly [L2] and [L5], the
    unique subset is [L2] and [L5]; and when no track name, submitted or
    reported, holds a hyphen, it is exactly the Listens whose triple is
    reported. *)
Theorem unique_selected_by_joined_key (batch : list Listen) (rows_inserted : list Row) :
  compute_unique batch rows_inserted = key_matched batch rows_inserted
  ∧ sublist (compute_unique batch rows_inserted) batch
  ∧ (∀ l, l ∈ batch → listen_triple l ∈ rows_inserted →
       l ∈ compute_unique batch rows_inserted)
  ∧ (∀ batch' rows', batch ≡ₚ batch' → rows_inserted ≡ₚ rows' →
       compute_unique batch rows_inserted ≡ₚ compute_unique batch' rows')
  ∧ (∀ L2 L5, NoDup batch → L2 ∈ batch → L5 ∈ batch → L2 ≠ L5 →
       (∀ l, l ∈ batch → listen_key l ∈ row_key <$> rows_inserted ↔ l = L2 ∨ l = L5) →
       compute_unique batch rows_inserted ≡ₚ [L2; L5])
  ∧ (Forall (λ l, no_dash (track_name (data l)) = true) batch →
     Forall (λ r : Row, no_dash r.1.2 = true) rows_inserted →
     compute_unique batch rows_inserted = triple_matched batch rows_inserted).
Proof.
  rewrite compute_unique_key_matched. split_and!.
  - done.
  - apply sublist_filter.
  - intros l Hl Ht. apply list_elem_of_filter. split; [|done].
    apply list_elem_of_fmap. exists (listen_triple l). split; [|done].
    symmetry. by apply triple_key.
  - intros batch' rows' Hd Hr. rewrite compute_unique_key_matched.
    by apply key_matched_perm.
  - intros L2 L5 Hnd H2 H5 Hne Hiff. apply NoDup_Permutation.
    + by apply NoDup_filter.
    + apply NoDup_cons. split; [|apply NoDup_singleton].
      rewrite list_elem_of_singleton. done.
    + intros l. unfold key_matched. rewrite list_elem_of_filter.
      rewrite elem_of_cons, list_elem_of_singleton. split.
      * intros [Hk Hl]. by apply Hiff.
      * intros Hl. assert (l ∈ batch) by (destruct Hl; by subst).
        split; [by apply Hiff | done].
  - apply key_matched_triple_matched.
Qed.

(** C2 as stated fails: a Listen whose triple no reported row carries is
    selected all the same. *)
Lemma triple_reading_fails :
  compute_unique [colliding_listen] [colliding_row]
  ≠ triple_matched [colliding_listen] [colliding_row].
Proof. vm_compute. discriminate. Qed.


(** ** The retry loops *)

Lemma publish_loop_closed w k rest unique s :
  publish_loop w (closed k ++ rest) unique s =
    match publish_loop w rest unique (reconnected w k s) with
    | (r, s', t) =>
        (r, s', retry_trace w (EvPublish (unique_ch s) unique false) k (connection s) ++ t)
    end.
Proof.
  revert s. induction k as [|k IH]; intros s; simpl.
  - by destruct (publish_loop w rest unique s) as [[r s'] t].
  - munfold. simpl. fold (closed k). rewrite IH. simpl.
    by destruct (publish_loop w rest unique _) as [[r s'] t].
Qed.

Lemma publish_loop_raises w e rest unique s :
  is_ConnectionClosed e = false →
  publish_loop w (Some e :: rest) unique s =
    (Raised e, s, [EvPublish (unique_ch s) unique false]).
Proof. intros H. simpl. munfold. simpl. by rewrite H. Qed.

Lemma ack_loop_closed w tag k rest s :
  ack_loop w tag (closed k ++ rest) s =
    match ack_loop w tag rest (reconnected w k s) with
    | (r, s', t) =>
        (r, s', retry_trace w (EvAck (incoming_ch s) tag false) k (connection s) ++ t)
    end.
Proof.
  revert s. induction k as [|k IH]; intros s; simpl.
  - by destruct (ack_loop w tag rest s) as [[r s'] t].
  - munfold. simpl. fold (closed k). rewrite IH. simpl.
    by destruct (ack_loop w tag rest _) as [[r s'] t].
Qed.

Lemma ack_loop_raises w tag e rest s :
  is_ConnectionClosed e = false →
  ack_loop w tag (Some e :: rest) s = (Raised e, s, [EvAck (incoming_ch s) tag false]).
Proof. intros H. simpl. munfold. simpl. by rewrite H. Qed.

(** Every script is a run of [ConnectionClosed] answers followed by the end
    of the script, a call that goes through, or another exception. *)
Lemma script_split (script : list (option exn)) :
  ∃ k rest, script = closed k ++ rest ∧
    (rest = [] ∨ (∃ rest', rest = None :: rest')
     ∨ (∃ e rest', rest = Some e :: rest' ∧ is_ConnectionClosed e = false)).
Proof.
  induction script as [|a script (k & rest & -> & H)].
  - exists O, []. auto.
  - destruct a as [e|].
    + destruct (is_ConnectionClosed e) eqn:E.
      * destruct e; try discriminate. by exists (S k), rest.
      * exists O, (Some e :: closed k ++ rest). split; [done|]. right. right. eauto.
    + exists O, (None :: closed k ++ rest). split; [done|]. right. left. eauto.
Qed.

Lemma reconnected_fields w k s :
  incoming_ch (reconnected w k s) = incoming_ch s
  ∧ unique_ch (reconnected w k s) = unique_ch s
  ∧ incoming_listens (reconnected w k s) = incoming_listens s
  ∧ unique_listens (reconnected w k s) = unique_listens s
  ∧ metric_submission_time (reconnected w k s) = metric_submission_time s.
Proof.
  revert s. induction k as [|k IH]; intros s; simpl; [done|].
  destruct (IH (set_connection (Some (utils_connect_to_rabbitmq w (connection s))) s))
    as (-> & -> & -> & -> & ->). done.
Qed.

Lemma count_retry_trace p w attempt k c :
  p attempt = true → (∀ c', p (EvConnect c') = false) →
  count_events p (retry_trace w attempt k c) = k.
Proof.
  intros Ha Hc. revert c. induction k as [|k IH]; intros c; [done|].
  unfold count_events in *. simpl. rewrite Ha, Hc. simpl. by rewrite IH.
Qed.

Lemma count_retry_trace_none p w attempt k c :
  p attempt = false → (∀ c', p (EvConnect c') = false) →
  count_events p (retry_trace w attempt k c) = O.
Proof.
  intros Ha Hc. revert c. induction k as [|k IH]; intros c; [done|].
  unfold count_events in *. simpl. rewrite Ha, Hc. by rewrite IH.
Qed.

Lemma keeps_publish_loop {B} (f : Self → B) w script unique :
  (∀ c s, f (set_connection c s) = f s) → keeps f (publish_loop w script unique).
Proof.
  intros H. induction script as [|a rest IH]; simpl; [apply keeps_retrying|].
  apply keeps_bind; [apply keeps_get|]. intros ch.
  apply keeps_bind; [|intros [|]; auto with keeps].
  apply keeps_try_except; auto 10 with keeps.
Qed.

Lemma emits_publish_loop (P : event → Prop) w script unique :
  (∀ c, P (EvConnect c)) → (∀ ch d, P (EvPublish ch unique d)) →
  emits P (publish_loop w script unique).
Proof.
  intros H1 H2. induction script as [|a rest IH]; simpl; [apply emits_retrying|].
  apply emits_bind; [apply emits_get|]. intros ch.
  apply emits_bind; [|intros [|]; auto with emits].
  apply emits_try_except; auto 10 with emits.
Qed.

(** ** The paths through [insert_to_listenstore] *)

Lemma submit_metrics_if_due_eq w s :
  submit_metrics_if_due w s =
    if bool_decide (monotonic w > metric_submission_time s) then
      (Returned tt, flushed s,
       [EvMonotonic; EvMetricsSet (incoming_listens s) (unique_listens s)])
    else (Returned tt, s, [EvMonotonic]).
Proof.
  unfold submit_metrics_if_due. munfold. simpl. by case_bool_decide.
Qed.

Lemma insert_empty w s : insert_to_listenstore w [] s = (Returned 0, s, []).
Proof. reflexivity. Qed.

Lemma insert_raises w s data e :
  data ≠ [] → ls_insert w data = Raises e →
  insert_to_listenstore w data s =
    if is_OperationalError e then
      (Returned LISTEN_INSERT_ERROR_SENTINEL, counted (len data) s,
       [EvInsert data;
        EvLogError ("Cannot write data to listenstore: " +:+ exn_str e +:+ ". Sleep.");
        EvSleep ERROR_RETRY_DELAY])
    else (Raised e, counted (len data) s, [EvInsert data]).
Proof.
  intros Hd H. destruct data as [|l data]; [done|].
  unfold insert_to_listenstore. munfold. rewrite H. simpl.
  by destruct (is_OperationalError e).
Qed.

Lemma insert_no_rows w s data :
  data ≠ [] → ls_insert w data = Ok [] →
  insert_to_listenstore w data s =
    (Returned (len data), counted (len data) s, [EvInsert data]).
Proof.
  intros Hd H. destruct data as [|l data]; [done|].
  unfold insert_to_listenstore. munfold. rewrite H. simpl. done.
Qed.

Lemma insert_no_unique w s data rows :
  data ≠ [] → ls_insert w data = Ok rows → rows ≠ [] → compute_unique data rows = [] →
  insert_to_listenstore w data s =
    (Returned (len data), counted (len data) s, EvInsert data :: increment_events w rows).
Proof.
  intros Hd H Hr Hu. destruct data as [|l data]; [done|]. destruct rows as [|r rows]; [done|].
  unfold insert_to_listenstore. munfold. rewrite H. simpl. rewrite Hu.
  unfold increment_events. by destruct (increment_listen_count_for_day w).
Qed.

Lemma insert_publishes w s data rows :
  data ≠ [] → ls_insert w data = Ok rows → rows ≠ [] → compute_unique data rows ≠ [] →
  insert_to_listenstore w data s =
    let unique := compute_unique data rows in
    let t1 := EvInsert data :: increment_events w rows in
    match publish_loop w (publish_script w) unique (counted (len data) s) with
    | (Returned _, s2, t2) =>
        match update_recent_listens w with
        | Some e => (Raised e, s2, t1 ++ t2 ++ [EvUpdateRecent unique])
        | None =>
            match submit_metrics_if_due w
                    (set_unique_listens (unique_listens s2 + len unique) s2) with
            | (_, s4, t4) =>
                (Returned (len data), s4, t1 ++ t2 ++ EvUpdateRecent unique :: t4)
            end
        end
    | (Raised e, s2, t2) => (Raised e, s2, t1 ++ t2)
    | (Retrying, s2, t2) => (Retrying, s2, t1 ++ t2)
    end.
Proof.
  intros Hd H Hr Hu. destruct data as [|l data]; [done|]. destruct rows as [|r rows]; [done|].
  unfold insert_to_listenstore, increment_events, submit_metrics_if_due.
  munfold. rewrite H. cbn -[publish_loop len Z.add compute_unique].
  destruct (compute_unique (l :: data) (r :: rows)) as [|u unique] eqn:E; [done|].
  destruct (increment_listen_count_for_day w); cbn -[publish_loop len Z.add].
  all: destruct (publish_loop w (publish_script w) (u :: unique) _) as [[[[]|e2|] s2] t2];
    cbn -[len Z.add]; try done.
  all: destruct (update_recent_listens w); cbn -[len Z.add]; try done.
  all: try case_bool_decide; cbn -[len Z.add].
  all: rewrite ?app_nil_r, <- ?app_assoc; cbn -[len Z.add]; done.
Qed.

Lemma len_nonneg {A} (l : list A) : 0 ≤ len l.
Proof. unfold len. lia. Qed.

Lemma len_not_sentinel {A} (l : list A) : len l ≠ LISTEN_INSERT_ERROR_SENTINEL.
Proof. unfold LISTEN_INSERT_ERROR_SENTINEL, len. lia. Qed.

Lemma publish_loop_returned w script unique s x s' t :
  publish_loop w script unique s = (Returned x, s', t) →
  ∃ k rest, script = closed k ++ None :: rest
    ∧ s' = reconnected w k s
    ∧ t = retry_trace w (EvPublish (unique_ch s) unique false) k (connection s)
          ++ [EvPublish (unique_ch s) unique true].
Proof.
  destruct (script_split script) as (k & rest & -> & Hrest).
  rewrite publish_loop_closed. intros H.
  destruct Hrest as [->|[[rest' ->]|(e & rest' & -> & He)]].
  - simpl in H. discriminate.
  - exists k, rest'. simpl in H. munfold. simpl in H.
    destruct (reconnected_fields w k s) as (_ & Hu & _).
    rewrite Hu in H. by simplify_eq.
  - rewrite (publish_loop_raises _ _ _ _ _ He) in H. discriminate.
Qed.

Lemma ack_loop_returned w tag script s x s' t :
  ack_loop w tag script s = (Returned x, s', t) →
  ∃ k rest, script = closed k ++ None :: rest
    ∧ s' = reconnected w k s
    ∧ t = retry_trace w (EvAck (incoming_ch s) tag false) k (connection s)
          ++ [EvAck (incoming_ch s) tag true].
Proof.
  destruct (script_split script) as (k & rest & -> & Hrest).
  rewrite ack_loop_closed. intros H.
  destruct Hrest as [->|[[rest' ->]|(e & rest' & -> & He)]].
  - simpl in H. discriminate.
  - exists k, rest'. simpl in H. munfold. simpl in H.
    destruct (reconnected_fields w k s) as (Hi & _).
    rewrite Hi in H. by simplify_eq.
  - rewrite (ack_loop_raises _ _ _ _ _ He) in H. discriminate.
Qed.

Lemma publish_loop_quiet w script unique s :
  Forall (λ e, is_clock_or_metrics e = false) (publish_loop w script unique s).2.
Proof. by apply (emits_publish_loop (λ e, is_clock_or_metrics e = false)). Qed.

Lemma retry_trace_quiet (p : event → bool) w attempt k c :
  p attempt = false → (∀ c', p (EvConnect c') = false) →
  Forall (λ e, p e = false) (retry_trace w attempt k c).
Proof.
  intros Ha Hc. revert c. induction k as [|k IH]; intros c; simpl; [constructor|].
  repeat constructor; auto.
Qed.

(** The case analysis every statement about [insert_to_listenstore] rests
    on: which path the call takes. *)
Ltac insert_paths w s data rows e Hd Hins Hr Hu :=
  destruct (decide (data = [])) as [->|Hd];
  [ rewrite ?insert_empty in *
  | destruct (ls_insert w data) as [rows|e] eqn:Hins;
    [ destruct (decide (rows = [])) as [->|Hr];
      [ rewrite ?(insert_no_rows w s data Hd Hins) in *
      | destruct (decide (compute_unique data rows = [])) as [Hu|Hu];
        [ rewrite ?(insert_no_unique w s data rows Hd Hins Hr Hu) in *
        | rewrite ?(insert_publishes w s data rows Hd Hins Hr Hu) in * ] ]
    | rewrite ?(insert_raises w s data e Hd Hins) in * ] ].

Lemma increment_events_quiet w rows :
  Forall (λ e, is_clock_or_metrics e = false) (increment_events w rows).
Proof.
  unfold increment_events. destruct (increment_listen_count_for_day w); repeat constructor.
Qed.

Lemma count_increment_events p w rows :
  (∀ n, p (EvIncrementDay n) = false) → (∀ m, p (EvLogError m) = false) →
  count_events p (increment_events w rows) = O.
Proof.
  intros H1 H2. apply count_events_none. unfold increment_events.
  destruct (increment_listen_count_for_day w); repeat constructor; auto.
Qed.

Lemma publish_trace_quiet w s data rows k :
  Forall (λ e, is_clock_or_metrics e = false) (publish_trace w s data rows k).
Proof.
  unfold publish_trace. apply Forall_app. split.
  - constructor; [done|apply increment_events_quiet].
  - apply Forall_app. split; [by apply retry_trace_quiet | by repeat constructor].
Qed.

Lemma publish_trace_delivers w s data rows k :
  EvPublish (unique_ch s) (compute_unique data rows) true ∈ publish_trace w s data rows k.
Proof.
  unfold publish_trace. rewrite !elem_of_app, list_elem_of_singleton. auto.
Qed.

(** A batch that reaches the publish and returns: the broker took the
    publish after some [k] closed connections, the cache update went
    through, and the state and the trace are these. *)
Lemma insert_publishes_returned w s data rows r s' t :
  data ≠ [] → ls_insert w data = Ok rows → rows ≠ [] → compute_unique data rows ≠ [] →
  insert_to_listenstore w data s = (Returned r, s', t) →
  ∃ k rest,
    publish_script w = closed k ++ None :: rest
    ∧ update_recent_listens w = None
    ∧ r = len data
    ∧ let unique := compute_unique data rows in
      let s3 := set_unique_listens (unique_listens s + len unique)
                  (reconnected w k (counted (len data) s)) in
      if bool_decide (monotonic w > metric_submission_time s) then
        s' = flushed s3
        ∧ t = publish_trace w s data rows k
              ++ [EvUpdateRecent unique; EvMonotonic;
                  EvMetricsSet (incoming_listens s + len data) (unique_listens s + len unique)]
      else
        s' = s3 ∧ t = publish_trace w s data rows k ++ [EvUpdateRecent unique; EvMonotonic].
Proof.
  intros Hd Hins Hr Hu H. rewrite (insert_publishes w s data rows Hd Hins Hr Hu) in H.
  cbv zeta in H.
  destruct (publish_loop w (publish_script w) (compute_unique data rows)
              (counted (len data) s)) as [[[[]|e2|] s2] t2] eqn:Hp; try discriminate.
  destruct (update_recent_listens w); [discriminate|].
  apply publish_loop_returned in Hp as (k & rest & Hs & -> & ->).
  exists k, rest. split_and!; [done|done|..].
  - rewrite submit_metrics_if_due_eq in H. case_bool_decide; by simplify_eq.
  - cbv zeta. destruct (reconnected_fields w k (counted (len data) s))
      as (_ & _ & Hi & Hu' & Hm).
    rewrite submit_metrics_if_due_eq in H.
    cbn [metric_submission_time set_unique_listens incoming_listens unique_listens] in H.
    rewrite Hi, Hu', Hm in H.
    cbn [counted metric_submission_time set_incoming_listens incoming_listens
         unique_listens unique_ch connection] in H.
    unfold publish_trace.
    case_bool_decide; simplify_eq; (split; [done|]);
      by rewrite <- !app_assoc.
Qed.

Lemma insert_publishes_forward w s data rows k rest :
  data ≠ [] → ls_insert w data = Ok rows → rows ≠ [] → compute_unique data rows ≠ [] →
  publish_script w = closed k ++ None :: rest →
  update_recent_listens w = None →
  ∃ s' t, insert_to_listenstore w data s = (Returned (len data), s', t)
    ∧ publish_calls t = S k.
Proof.
  intros Hd Hins Hr Hu Hs Hrec.
  rewrite (insert_publishes w s data rows Hd Hins Hr Hu). cbv zeta.
  rewrite Hs, publish_loop_closed. simpl publish_loop. munfold. simpl.
  rewrite Hrec. rewrite submit_metrics_if_due_eq.
  set (tr := retry_trace _ _ _ _).
  assert (Htr : publish_calls tr = k) by (by apply count_retry_trace).
  assert (Hinc : publish_calls (increment_events w rows) = O)
    by (by apply count_increment_events).
  case_bool_decide; eexists _, _; (split; [reflexivity|]).
  all: unfold publish_calls in *; clear Hinc.
  all: destruct (increment_listen_count_for_day w); simpl.
  all: rewrite !count_events_cons, !count_events_app, Htr.
  all: unfold count_events; simpl; lia.
Qed.

Lemma batch_state_fields w k n u s :
  let s3 := set_unique_listens u (reconnected w k (counted n s)) in
  incoming_listens s3 = incoming_listens s + n
  ∧ unique_listens s3 = u
  ∧ metric_submission_time s3 = metric_submission_time s
  ∧ unique_ch s3 = unique_ch s
  ∧ incoming_ch s3 = incoming_ch s.
Proof.
  destruct (reconnected_fields w k (counted n s)) as (Hic & Huc & Hi & Hu & Hm).
  cbn. rewrite Hi, Hm, Huc, Hic. done.
Qed.

Lemma flushed_deadline s :
  metric_submission_time (flushed s) = metric_submission_time s + METRIC_UPDATE_INTERVAL.
Proof. reflexivity. Qed.

(** One batch and the counters: either nothing is emitted and both counters
    grow by the batch's counts, or the grown totals are emitted once, both
    counters restart from zero and the deadline moves by one interval. *)
Lemma insert_counters_step w data s r s' t :
  insert_to_listenstore w data s = (Returned r, s', t) →
  r ≠ LISTEN_INSERT_ERROR_SENTINEL →
  (flushes t = []
   ∧ incoming_listens s' = incoming_listens s + len data
   ∧ unique_listens s' = unique_listens s + len (batch_unique w data)
   ∧ metric_submission_time s' = metric_submission_time s)
  ∨ (flushes t = [(incoming_listens s + len data,
                   unique_listens s + len (batch_unique w data))]
     ∧ incoming_listens s' = 0
     ∧ unique_listens s' = 0
     ∧ metric_submission_time s' = metric_submission_time s + METRIC_UPDATE_INTERVAL
     ∧ monotonic w > metric_submission_time s).
Proof.
  intros H Hr'. unfold batch_unique.
  insert_paths w s data rows e Hd Hins Hr Hu.
  - left. simplify_eq. unfold compute_unique, len; simpl.
    destruct (ls_insert w []); simpl; split_and!; try done; lia.
  - left. simplify_eq. rewrite compute_unique_no_rows. unfold len. simpl.
    split_and!; try done. lia.
  - left. simplify_eq. rewrite Hu. split_and!; [|done|unfold len; simpl; lia|done].
    apply flushes_none. constructor; [done|apply increment_events_quiet].
  - rewrite <- (insert_publishes w s data rows Hd Hins Hr Hu) in H.
    apply (insert_publishes_returned _ _ _ rows) in H as (k & rest & _ & _ & _ & H);
      [|done..].
    cbv zeta in H.
    destruct (batch_state_fields w k (len data)
                (unique_listens s + len (compute_unique data rows)) s)
      as (Hi & Hu' & Hm & _).
    pose proof (flushes_none _ (publish_trace_quiet w s data rows k)) as Hq.
    case_bool_decide; destruct H as [-> ->]; rewrite flushes_app, Hq.
    + right. split_and!; try done. by rewrite flushed_deadline, Hm.
    + left. split_and!; done.
  - destruct (is_OperationalError e); simplify_eq.
Qed.

Lemma total_app l1 l2 : total (l1 ++ l2) = total l1 + total l2.
Proof. unfold total. induction l1 as [|x l1 IH]; simpl; lia. Qed.

(** Over any run of processed batches nothing is lost and nothing is counted
    twice: what was emitted plus what the counters hold is what the
    counters held before plus what the batches brought, and the deadline
    has moved by one interval per emission. *)
Lemma counters_conserved batches s s' t :
  insert_batches batches s = Some (s', t) →
  emitted_incoming t + incoming_listens s' = incoming_listens s + submitted_total batches
  ∧ emitted_unique t + unique_listens s' = unique_listens s + unique_total batches
  ∧ metric_submission_time s'
    = metric_submission_time s + METRIC_UPDATE_INTERVAL * len (flushes t).
Proof.
  revert s s' t. induction batches as [|[w data] rest IH]; intros s s' t H.
  - simpl in H. simplify_eq. unfold emitted_incoming, emitted_unique, submitted_total,
      unique_total, total, len. simpl. lia.
  - cbn [insert_batches] in H.
    destruct (insert_to_listenstore w data s) as [[[r| |] s1] t1] eqn:Hi; try discriminate.
    case_bool_decide as Hr; [discriminate|].
    destruct (insert_batches rest s1) as [[s2 t2]|] eqn:Hrest; [|discriminate].
    simplify_eq. destruct (IH _ _ _ Hrest) as (IH1 & IH2 & IH3).
    unfold emitted_incoming, emitted_unique, submitted_total, unique_total in *.
    rewrite flushes_app, !fmap_app, !total_app.
    rewrite !fmap_cons. cbn [total foldr fst snd]. fold (total).
    unfold len in IH3 |- *. rewrite length_app.
    destruct (insert_counters_step _ _ _ _ _ _ Hi Hr)
      as [(-> & Ha & Hb & Hc)|(-> & Ha & Hb & Hc & _)]; simpl;
      unfold total, len, METRIC_UPDATE_INTERVAL in *; simpl; lia.
Qed.

(** ** Every way through [insert_to_listenstore] *)

Lemma insert_follows_a_path w data s res s' t :
  insert_to_listenstore w data s = (res, s', t) → insert_path w data s res s' t.
Proof.
  intros H. insert_paths w s data rows e Hd Hins Hr Hu.
  - simplify_eq. by constructor.
  - simplify_eq. by constructor.
  - simplify_eq. by constructor.
  - cbv zeta in H.
    destruct (script_split (publish_script w)) as (k & rest & Hs & Hrest).
    rewrite Hs, publish_loop_closed in H.
    destruct (reconnected_fields w k (counted (len data) s)) as (_ & Huc & Hi & Hu' & Hm).
    destruct Hrest as [->|[[rest' ->]|(e & rest' & -> & He)]].
    + simpl in H. munfold. simplify_eq. rewrite app_nil_r in Hs.
      rewrite app_nil_r. by eapply path_retrying.
    + simpl publish_loop in H. munfold. simpl in H. rewrite Huc in H. simpl in H.
      destruct (update_recent_listens w) as [e|] eqn:Hrec.
      * simplify_eq. rewrite app_assoc.
        change ((EvInsert data :: increment_events w rows) ++
                (retry_trace w (EvPublish (unique_ch s) (compute_unique data rows) false)
                   k (connection s) ++
                 [EvPublish (unique_ch s) (compute_unique data rows) true]))
          with (publish_trace w s data rows k).
        by eapply path_recent_raises.
      * rewrite submit_metrics_if_due_eq in H.
        cbn [metric_submission_time set_unique_listens incoming_listens unique_listens] in H.
        rewrite Hi, Hu', Hm in H.
        cbn [counted metric_submission_time set_incoming_listens incoming_listens
             unique_listens] in H.
        case_bool_decide as Hdue; simplify_eq.
        -- rewrite app_assoc.
           change ((EvInsert data :: increment_events w rows) ++
                (retry_trace w (EvPublish (unique_ch s) (compute_unique data rows) false)
                   k (connection s) ++
                 [EvPublish (unique_ch s) (compute_unique data rows) true]))
             with (publish_trace w s data rows k).
           by eapply path_flushed.
        -- rewrite app_assoc.
           change ((EvInsert data :: increment_events w rows) ++
                (retry_trace w (EvPublish (unique_ch s) (compute_unique data rows) false)
                   k (connection s) ++
                 [EvPublish (unique_ch s) (compute_unique data rows) true]))
             with (publish_trace w s data rows k).
           by eapply path_not_due.
    + rewrite (publish_loop_raises _ _ _ _ _ He), Huc in H. simpl in H. simplify_eq.
      rewrite app_assoc. by eapply path_publish_raises.
  - destruct e; simpl in H; simplify_eq; by constructor.
Qed.

(** ** The counters, on every path *)

Lemma taken_closed k : taken (closed k) = false.
Proof. induction k as [|k IH]; [done|]. simpl. exact IH. Qed.

Lemma taken_closed_then_taken k rest : taken (closed k ++ None :: rest) = true.
Proof. induction k as [|k IH]; [done|]. simpl. exact IH. Qed.

Lemma taken_closed_then_raises k e rest :
  is_ConnectionClosed e = false → taken (closed k ++ Some e :: rest) = false.
Proof. intros He. induction k as [|k IH]; simpl; [by rewrite He | exact IH]. Qed.

Lemma batch_unique_empty w : batch_unique w [] = [].
Proof. unfold batch_unique. by destruct (ls_insert w []). Qed.

Lemma attempts_trace_quiet w s data rows k :
  Forall (λ e, is_clock_or_metrics e = false) (attempts_trace w s data rows k).
Proof.
  unfold attempts_trace. apply Forall_app. split.
  - constructor; [done|apply increment_events_quiet].
  - by apply retry_trace_quiet.
Qed.

(** One call and the counters, whatever its result: when the call flushes,
    the grown totals are emitted once, both counters restart from zero and
    the deadline moves by one interval; when it does not, nothing is emitted,
    [incoming_listens] has grown by the batch all the same, [unique_listens]
    by what the call counted, and the deadline stays. *)
Lemma insert_counters_every_path w data s :
  if flush_due w data s then
    flushes (insert_to_listenstore w data s).2
    = [(incoming_listens s + len data, unique_listens s + len (batch_unique w data))]
    ∧ incoming_listens (insert_to_listenstore w data s).1.2 = 0
    ∧ unique_listens (insert_to_listenstore w data s).1.2 = 0
    ∧ metric_submission_time (insert_to_listenstore w data s).1.2
      = metric_submission_time s + METRIC_UPDATE_INTERVAL
  else
    flushes (insert_to_listenstore w data s).2 = []
    ∧ incoming_listens (insert_to_listenstore w data s).1.2 = incoming_listens s + len data
    ∧ unique_listens (insert_to_listenstore w data s).1.2
      = unique_listens s + unique_counted w data
    ∧ metric_submission_time (insert_to_listenstore w data s).1.2
      = metric_submission_time s.
Proof.
  destruct (insert_to_listenstore w data s) as [[res s'] t] eqn:H.
  apply insert_follows_a_path in H. cbn [fst snd].
  unfold flush_due, unique_counted, reaches_deadline_check, batch_unique.
  destruct H as [ Hd | err Hd Hins | e Hd Hins He | Hd Hins | rows Hd Hins Hr Hun
    | rows k Hd Hins Hr Hun Hs | rows k e rest Hd Hins Hr Hun Hs He
    | rows k rest e Hd Hins Hr Hun Hs Hrec | rows k rest Hd Hins Hr Hun Hs Hrec Hdue
    | rows k rest Hd Hins Hr Hun Hs Hrec Hdue ];
    try rewrite Hins.
  - subst data. fold (batch_unique w []). rewrite batch_unique_empty.
    rewrite bool_decide_eq_false_2 by (by intros []). cbn [andb]. unfold len. cbn [length].
    split_and!; try done; lia.
  - rewrite bool_decide_eq_false_2 by (by intros []). cbn [andb]. split_and!; try done; cbn; lia.
  - rewrite bool_decide_eq_false_2 by (by intros []). cbn [andb]. split_and!; try done; cbn; lia.
  - rewrite compute_unique_no_rows.
    rewrite bool_decide_eq_false_2 by (by intros []). cbn [andb]. split_and!; try done; cbn; lia.
  - rewrite Hun. rewrite bool_decide_eq_false_2 by (by intros []). cbn [andb].
    split_and!; [|done|cbn; lia|done].
    apply flushes_none. constructor; [done|apply increment_events_quiet].
  - rewrite Hs, taken_closed, andb_false_r. cbn [andb].
    destruct (reconnected_fields w k (counted (len data) s)) as (_ & _ & -> & -> & ->).
    split_and!; [|done|simpl; lia|done].
    apply flushes_none, attempts_trace_quiet.
  - rewrite Hs, (taken_closed_then_raises _ _ _ He), andb_false_r. cbn [andb].
    destruct (reconnected_fields w k (counted (len data) s)) as (_ & _ & -> & -> & ->).
    split_and!; [|done|simpl; lia|done].
    apply flushes_none, Forall_app. split; [apply attempts_trace_quiet|by repeat constructor].
  - rewrite Hs, taken_closed_then_taken, Hrec, andb_false_r. cbn [andb].
    destruct (reconnected_fields w k (counted (len data) s)) as (_ & _ & -> & -> & ->).
    split_and!; [|done|simpl; lia|done].
    apply flushes_none, Forall_app. split; [apply publish_trace_quiet|by repeat constructor].
  - rewrite Hs, taken_closed_then_taken, Hrec.
    rewrite bool_decide_eq_true_2 by done. rewrite bool_decide_eq_true_2 by done. cbn [andb].
    rewrite flushes_app, (flushes_none _ (publish_trace_quiet w s data rows k)).
    split_and!; try done.
    unfold published. rewrite flushed_deadline.
    by destruct (batch_state_fields w k (len data)
                   (unique_listens s + len (compute_unique data rows)) s) as (_ & _ & -> & _).
  - rewrite Hs, taken_closed_then_taken, Hrec.
    rewrite bool_decide_eq_true_2 by done. rewrite bool_decide_eq_false_2 by done. cbn [andb].
    rewrite flushes_app, (flushes_none _ (publish_trace_quiet w s data rows k)).
    unfold published.
    destruct (batch_state_fields w k (len data)
                (unique_listens s + len (compute_unique data rows)) s) as (-> & -> & -> & _).
    by split_and!.
Qed.

(** Which calls reach the deadline check, by their result: a refused batch
    (the sentinel) never does, a processed one exactly when its unique
    subset is not empty. *)
Lemma returned_reaches_deadline_check w data s r :
  (insert_to_listenstore w data s).1.1 = Returned r →
  if bool_decide (r = LISTEN_INSERT_ERROR_SENTINEL)
  then data ≠ [] ∧ reaches_deadline_check w data = false
  else reaches_deadline_check w data = bool_decide (batch_unique w data ≠ []).
Proof.
  destruct (insert_to_listenstore w data s) as [[res s'] t] eqn:H.
  apply insert_follows_a_path in H. cbn [fst]. intros ->.
  unfold reaches_deadline_check, batch_unique.
  inversion H as [ Hd | err Hd Hins | e Hd Hins He | Hd Hins | rows Hd Hins Hr Hun
    | rows k Hd Hins Hr Hun Hs | rows k e rest Hd Hins Hr Hun Hs He
    | rows k rest e Hd Hins Hr Hun Hs Hrec | rows k rest Hd Hins Hr Hun Hs Hrec Hdue
    | rows k rest Hd Hins Hr Hun Hs Hrec Hdue ]; subst;
    try rewrite Hins.
  - rewrite bool_decide_eq_false_2 by done.
    fold (batch_unique w []). rewrite batch_unique_empty.
    by rewrite bool_decide_eq_false_2 by (by intros []).
  - rewrite bool_decide_eq_true_2 by done. split; [done|].
    by rewrite bool_decide_eq_false_2 by (by intros []).
  - rewrite (bool_decide_eq_false_2 (len data = _)) by apply len_not_sentinel.
    rewrite compute_unique_no_rows.
    by rewrite bool_decide_eq_false_2 by (by intros []).
  - rewrite (bool_decide_eq_false_2 (len data = _)) by apply len_not_sentinel.
    rewrite Hun. by rewrite bool_decide_eq_false_2 by (by intros []).
  - rewrite (bool_decide_eq_false_2 (len data = _)) by apply len_not_sentinel.
    rewrite Hs, taken_closed_then_taken, Hrec. simpl. by rewrite !andb_true_r.
  - rewrite (bool_decide_eq_false_2 (len data = _)) by apply len_not_sentinel.
    rewrite Hs, taken_closed_then_taken, Hrec. simpl. by rewrite !andb_true_r.
Qed.

(** C6: in every call of [insert_to_listenstore], whatever its result,
    [incoming_listens] grows once by the number of Listens submitted (a batch
    refused with the sentinel is counted too: line 171 precedes the insert),
    and [unique_listens] grows once by the size of the unique subset in the
    calls that get past the publish and the cache update; a call that
    returns a count is such a call exactly when its unique subset is not
    empty, a call that returns the sentinel never is. A call flushes exactly
    when it gets that far with the clock strictly past the deadline: the
    grown totals are then emitted once, both counters are reset to zero and
    the deadline is advanced by one interval (time is counted in whole
    seconds); in every other call nothing is emitted and the deadline stays.
    The call after a flush emits nothing or its own counts only. *)
Theorem counters_once_per_call_and_flush w data s :
  let run := insert_to_listenstore w data s in
  (if flush_due w data s then
     flushes run.2
     = [(incoming_listens s + len data, unique_listens s + len (batch_unique w data))]
     ∧ incoming_listens run.1.2 = 0
     ∧ unique_listens run.1.2 = 0
     ∧ metric_submission_time run.1.2 = metric_submission_time s + METRIC_UPDATE_INTERVAL
   else
     flushes run.2 = []
     ∧ incoming_listens run.1.2 = incoming_listens s + len data
     ∧ unique_listens run.1.2 = unique_listens s + unique_counted w data
     ∧ metric_submission_time run.1.2 = metric_submission_time s)
  ∧ (∀ r, run.1.1 = Returned r →
       if bool_decide (r = LISTEN_INSERT_ERROR_SENTINEL)
       then data ≠ [] ∧ reaches_deadline_check w data = false
       else reaches_deadline_check w data = bool_decide (batch_unique w data ≠ []))
  ∧ (∀ w2 data2,
       flush_due w data s = true →
       flushes (insert_to_listenstore w2 data2 run.1.2).2
       = if flush_due w2 data2 run.1.2
         then [(len data2, len (batch_unique w2 data2))]
         else []).
Proof.
  cbv zeta. split_and!.
  - apply insert_counters_every_path.
  - apply returned_reaches_deadline_check.
  - intros w2 data2 Hflush.
    pose proof (insert_counters_every_path w data s) as H1. rewrite Hflush in H1.
    destruct H1 as (_ & Hi & Hu & _).
    pose proof (insert_counters_every_path w2 data2 (insert_to_listenstore w data s).1.2)
      as H2.
    destruct (flush_due w2 data2 (insert_to_listenstore w data s).1.2).
    + destruct H2 as (-> & _). by rewrite Hi, Hu, !Z.add_0_l.
    + by destruct H2 as (-> & _).
Qed.

(** C6 as stated fails: the storage refuses one Listen, the message is
    delivered again and the Listen is stored. One batch of one Listen was
    processed, and the totals handed to [metrics.set] count two incoming
    Listens. *)
Lemma refused_batch_enters_emitted_total :
  let first := insert_to_listenstore down_world [listen1] s0 in
  let second := insert_to_listenstore late_world [listen1] first.1.2 in
  first.1.1 = Returned LISTEN_INSERT_ERROR_SENTINEL
  ∧ incoming_listens first.1.2 = incoming_listens s0 + 1
  ∧ second.1.1 = Returned 1
  ∧ flushes second.2 = [(2, 1)]
  ∧ submitted_total [(late_world, [listen1])] = 1.
Proof. vm_compute. by split_and!. Qed.

(** Either a call neither reads the clock nor emits metrics nor moves the
    deadline, or it went through the publish of a non-empty unique subset. *)
Lemma insert_quiet_or_published w data s r s' t :
  insert_to_listenstore w data s = (r, s', t) →
  (Forall (λ e, is_clock_or_metrics e = false) t
   ∧ metric_submission_time s' = metric_submission_time s)
  ∨ (data ≠ [] ∧ ∃ rows, ls_insert w data = Ok rows ∧ rows ≠ []
       ∧ compute_unique data rows ≠ []
       ∧ EvPublish (unique_ch s) (compute_unique data rows) true ∈ t).
Proof.
  intros H. destruct r as [r| |].
  - insert_paths w s data rows e Hd Hins Hr Hu.
    + left. by simplify_eq.
    + left. simplify_eq. split; [by repeat constructor | done].
    + left. simplify_eq. split; [|done].
      constructor; [done | apply increment_events_quiet].
    + right. split; [done|]. exists rows. split_and!; try done.
      rewrite <- (insert_publishes w s data rows Hd Hins Hr Hu) in H.
      apply (insert_publishes_returned _ _ _ rows) in H as (k & rest & _ & _ & _ & H);
        [|done..].
      cbv zeta in H. pose proof (publish_trace_delivers w s data rows k).
      case_bool_decide; destruct H as [_ ->]; apply elem_of_app; by left.
    + left. destruct (is_OperationalError e); simplify_eq.
      split; [by repeat constructor | done].
  - left. insert_paths w s data rows e0 Hd Hins Hr Hu; try discriminate.
    + cbv zeta in H.
      pose proof (publish_loop_quiet w (publish_script w) (compute_unique data rows)
                    (counted (len data) s)) as Hq.
      pose proof (keeps_publish_loop metric_submission_time w (publish_script w)
                    (compute_unique data rows) (λ _ _, eq_refl) (counted (len data) s)) as Hk.
      destruct (publish_loop w (publish_script w) (compute_unique data rows)
                  (counted (len data) s)) as [[[[]|e2|] s2] t2]; simpl in Hq, Hk.
      * destruct (update_recent_listens w); [|rewrite submit_metrics_if_due_eq in H;
          case_bool_decide; discriminate].
        simplify_eq. split; [|done]. constructor; [done|].
        rewrite !Forall_app. split_and!; [apply increment_events_quiet|done|].
        by repeat constructor.
      * simplify_eq. split; [|done]. constructor; [done|].
        rewrite !Forall_app. split; [apply increment_events_quiet|done].
      * discriminate.
    + destruct (is_OperationalError e0); simplify_eq.
      split; [by repeat constructor | done].
  - left. insert_paths w s data rows e0 Hd Hins Hr Hu; try discriminate.
    + cbv zeta in H.
      pose proof (publish_loop_quiet w (publish_script w) (compute_unique data rows)
                    (counted (len data) s)) as Hq.
      pose proof (keeps_publish_loop metric_submission_time w (publish_script w)
                    (compute_unique data rows) (λ _ _, eq_refl) (counted (len data) s)) as Hk.
      destruct (publish_loop w (publish_script w) (compute_unique data rows)
                  (counted (len data) s)) as [[[[]|e2|] s2] t2]; simpl in Hq, Hk.
      * destruct (update_recent_listens w); [discriminate|].
        rewrite submit_metrics_if_due_eq in H. case_bool_decide; discriminate.
      * discriminate.
      * simplify_eq. split; [|done]. constructor; [done|].
        rewrite !Forall_app. split; [apply increment_events_quiet|done].
    + destruct (is_OperationalError e0); simplify_eq.
Qed.

(** C10: the clock is read, metrics are emitted or the deadline moves only
    in a call that published a non-empty unique subset; on the early-return
    paths (empty input, a raising insert, no row inserted, empty unique
    subset) none of the three happens, whatever the clock says. *)
Theorem deadline_examined_only_after_publish w data s r s' t :
  insert_to_listenstore w data s = (r, s', t) →
  ((EvMonotonic ∈ t ∨ flushes t ≠ []
    ∨ metric_submission_time s' ≠ metric_submission_time s) →
   batch_unique w data ≠ []
   ∧ EvPublish (unique_ch s) (batch_unique w data) true ∈ t)
  ∧ ((data = [] ∨ (∃ e, ls_insert w data = Raises e) ∨ ls_insert w data = Ok []
      ∨ batch_unique w data = []) →
     (EvMonotonic ∉ t) ∧ flushes t = []
     ∧ metric_submission_time s' = metric_submission_time s).
Proof.
  intros H. apply insert_quiet_or_published in H.
  destruct H as [[Hq Hm]|(Hd & rows & Hins & Hr & Hu & Hp)].
  - split.
    + intros [Hc|[Hf|Hne]].
      * by apply (no_clock_or_metrics _ _ Hq) in Hc.
      * by rewrite (flushes_none _ Hq) in Hf.
      * done.
    + intros _. split_and!; [|by apply flushes_none|done].
      by apply (no_clock_or_metrics _ _ Hq).
  - unfold batch_unique. rewrite Hins. split; [done|].
    intros [->|[[e He]|[Hno|Hno]]]; [done|congruence|by simplify_eq|done].
Qed.

(** C5: every value [insert_to_listenstore] returns is the sentinel or the
    input length, and it is the sentinel exactly when the storage insert was
    called and raised a connectivity error; empty input gives 0 with no call
    at all; a connectivity error gives the sentinel; zero inserted rows for
    a non-empty input give the input length, which is not zero, and no
    publish call; and the call does return the input length whenever the
    storage answers, the broker ends up taking the publish and the cache
    update goes through. *)
Theorem insert_returns_sentinel_or_length w data s :
  (∀ r s' t, insert_to_listenstore w data s = (Returned r, s', t) →
     (r = LISTEN_INSERT_ERROR_SENTINEL ∨ r = len data)
     ∧ (r = LISTEN_INSERT_ERROR_SENTINEL ↔
        data ≠ [] ∧ ∃ err, ls_insert w data = Raises (OperationalError err)))
  ∧ (data = [] → insert_to_listenstore w data s = (Returned 0, s, []))
  ∧ (data ≠ [] → ∀ err, ls_insert w data = Raises (OperationalError err) →
       ∃ s' t, insert_to_listenstore w data s
               = (Returned LISTEN_INSERT_ERROR_SENTINEL, s', t)
         ∧ publish_calls t = O ∧ ack_calls t = O)
  ∧ (data ≠ [] → ls_insert w data = Ok [] →
       ∃ s' t, insert_to_listenstore w data s = (Returned (len data), s', t)
         ∧ len data ≠ 0 ∧ publish_calls t = O)
  ∧ (∀ rows k rest, ls_insert w data = Ok rows →
       publish_script w = closed k ++ None :: rest →
       update_recent_listens w = None →
       ∃ s' t, insert_to_listenstore w data s = (Returned (len data), s', t)).
Proof.
  split_and!.
  - intros r s' t H. insert_paths w s data rows e Hd Hins Hr Hu.
    + simplify_eq. split; [by right|]. split; [done|]. by intros [? _].
    + simplify_eq. split; [by right|]. split.
      * intros Hs. by apply len_not_sentinel in Hs.
      * intros [_ [err Herr]]. discriminate.
    + simplify_eq. split; [by right|]. split.
      * intros Hs. by apply len_not_sentinel in Hs.
      * intros [_ [err Herr]]. discriminate.
    + rewrite <- (insert_publishes w s data rows Hd Hins Hr Hu) in H.
      apply (insert_publishes_returned _ _ _ rows) in H as (k & rest & _ & _ & -> & _);
        [|done..].
      split; [by right|]. split.
      * intros Hs. by apply len_not_sentinel in Hs.
      * intros [_ [err Herr]]. discriminate.
    + destruct e; simpl in H; simplify_eq. split; [by left|]. split; [|done].
      intros _. split; [done|]. by eexists.
  - by intros ->.
  - intros Hd err Hins. rewrite (insert_raises w s data _ Hd Hins). simpl.
    eexists _, _. split; [done|]. done.
  - intros Hd Hins. rewrite (insert_no_rows w s data Hd Hins).
    eexists _, _. split; [done|]. split; [|done].
    destruct data; [done|]. unfold len. simpl. lia.
  - intros rows k rest Hins Hs Hrec.
    destruct (decide (data = [])) as [->|Hd]; [by eexists _, _|].
    destruct (decide (rows = [])) as [->|Hr].
    { rewrite (insert_no_rows w s data Hd Hins). by eexists _, _. }
    destruct (decide (compute_unique data rows = [])) as [Hu|Hu].
    { rewrite (insert_no_unique w s data rows Hd Hins Hr Hu). by eexists _, _. }
    destruct (insert_publishes_forward w s data rows k rest Hd Hins Hr Hu Hs Hrec)
      as (s' & t & H & _).
    by exists s', t.
Qed.

(** ** Enrichment *)

Arguments augment_pair : simpl never.

Lemma augment_loop_eq pairs augmented_listens s :
  augment_loop pairs augmented_listens s =
    match mapM augment_pair pairs with
    | Some l => (Returned (augmented_listens ++ l), s, [])
    | None =>
        (Returned [], s, [EvLogError "MessyBrainz did not return a proper set of ids"])
    end.
Proof.
  revert augmented_listens. induction pairs as [|[listen ids] rest IH]; intros acc.
  - simpl. by rewrite app_nil_r.
  - assert (Hp : augment_pair (listen, ids) =
                 match ids !! "recording_msid", ids !! "artist_msid" with
                 | Some r, Some a => Some (augment listen ids r a)
                 | _, _ => None
                 end) by done.
    simpl. rewrite Hp.
    destruct (ids !! "recording_msid") as [r|]; [|done].
    destruct (ids !! "artist_msid") as [a|]; [|done].
    rewrite IH. simpl. destruct (mapM augment_pair rest); simpl; [|done].
    by rewrite <- app_assoc.
Qed.

Lemma messybrainz_lookup_eq w call_no listens s :
  messybrainz_lookup w call_no listens s =
    match submit_listens w call_no (messy_dict_of <$> listens) with
    | Raises e =>
        if is_lookup_failure e
        then (Returned [], s, lookup_events w call_no listens)
        else (Raised e, s, [EvLookup (messy_dict_of <$> listens)])
    | Ok _ => (Returned (chunk_enriched w call_no listens), s, lookup_events w call_no listens)
    end.
Proof.
  unfold messybrainz_lookup, chunk_enriched, lookup_events. munfold.
  destruct (submit_listens w call_no (messy_dict_of <$> listens)) as [payload|e]; simpl.
  - rewrite augment_loop_eq. by destruct (mapM augment_pair (zip listens payload)).
  - by destruct (is_lookup_failure e).
Qed.

Lemma lookup_chunks_eq w call_no chunks msb_listens s :
  (∀ i request e, submit_listens w i request = Raises e → is_lookup_failure e = true) →
  lookup_chunks w call_no chunks msb_listens s =
    (Returned (msb_listens ++ concat (imap (λ i, chunk_enriched w (call_no + i)) chunks)),
     s,
     concat (imap (λ i, lookup_events w (call_no + i)) chunks)).
Proof.
  intros Hw. revert call_no msb_listens.
  induction chunks as [|chunk rest IH]; intros call_no acc.
  - simpl. by rewrite app_nil_r.
  - cbn [lookup_chunks]. unfold bind. rewrite messybrainz_lookup_eq.
    rewrite !imap_cons. cbn [concat]. rewrite Nat.add_0_r.
    assert (Hshift : ∀ {B} (f : nat → list RawRecord → B),
              imap ((λ i, f (call_no + i)%nat) ∘ S) rest
              = imap (λ i, f (S call_no + i)%nat) rest).
    { intros B f. apply imap_ext. intros i x _. simpl. f_equal. lia. }
    rewrite !Hshift.
    destruct (submit_listens w call_no (messy_dict_of <$> chunk)) as [payload|e] eqn:E.
    + rewrite IH. by rewrite <- app_assoc.
    + rewrite (Hw _ _ _ E). rewrite IH.
      unfold chunk_enriched at 2. rewrite E. by rewrite app_nil_r.
Qed.

Lemma chunked_go_concat {A} fuel n (l : list A) :
  (0 < n)%nat → (length l ≤ fuel)%nat → concat (chunked_go fuel n l) = l.
Proof.
  intros Hn. revert l. induction fuel as [|fuel IH]; intros l Hl.
  - destruct l; [done|]. simpl in Hl. lia.
  - destruct l as [|x l]; [done|].
    cbn [chunked_go concat]. rewrite IH; [apply take_drop|].
    rewrite length_drop. simpl in *. lia.
Qed.

Lemma chunked_concat {A} (l : list A) n : (0 < n)%nat → concat (chunked l n) = l.
Proof.
  intros Hn. unfold chunked. destruct n; [lia|]. by apply chunked_go_concat; [lia|].
Qed.

Lemma chunked_go_bound {A} fuel n (l : list A) :
  Forall (λ chunk, (length chunk ≤ n)%nat) (chunked_go fuel n l).
Proof.
  revert l. induction fuel as [|fuel IH]; intros l; [by destruct l; constructor|].
  destruct l as [|x l]; [constructor|]. cbn [chunked_go]. constructor; [|apply IH].
  rewrite length_take. lia.
Qed.

(** C3, as the code has it: when the lookup raises nothing but its two
    failure exceptions, the enrichment returns, without touching [self], the
    concatenation over the sub-batches of: nothing when the sub-batch's
    lookup failed, nothing when some zipped response of the sub-batch lacks
    one of the two mandatory identifiers, else every zipped record
    augmented; the sub-batches have at most the maximum size and make up
    the input. *)
Theorem enrichment_drops_whole_sub_batches MAX w listens s :
  (∀ i request e, submit_listens w i request = Raises e → is_lookup_failure e = true) →
  (∃ t, enrich MAX w listens s
        = (Returned (concat (imap (chunk_enriched w) (chunked listens MAX))), s, t))
  ∧ ((0 < MAX)%nat → concat (chunked listens MAX) = listens)
  ∧ Forall (λ chunk, (length chunk ≤ MAX)%nat) (chunked listens MAX)
  ∧ (∀ i chunk, chunked listens MAX !! i = Some chunk →
       match submit_listens w i (messy_dict_of <$> chunk) with
       | Raises _ => chunk_enriched w i chunk = []
       | Ok payload =>
           (Exists (λ p, augment_pair p = None) (zip chunk payload)
            ∧ chunk_enriched w i chunk = [])
           ∨ Forall2 (λ p out, augment_pair p = Some out) (zip chunk payload)
               (chunk_enriched w i chunk)
       end).
Proof.
  intros Hw. split_and!.
  - unfold enrich. rewrite (lookup_chunks_eq _ _ _ _ _ Hw). simpl. by eexists.
  - apply chunked_concat.
  - unfold chunked. destruct MAX; [constructor|apply chunked_go_bound].
  - intros i chunk _. unfold chunk_enriched.
    destruct (submit_listens w i (messy_dict_of <$> chunk)) as [payload|e]; [|done].
    destruct (mapM augment_pair (zip chunk payload)) as [l|] eqn:E.
    + right. simpl. by apply mapM_Some.
    + left. split; [|done]. apply mapM_None in E. apply Exists_exists.
      apply Exists_exists in E. destruct E as (p & Hp & Hn). eauto.
Qed.

(** C3 as stated fails: the second response of a two-record sub-batch lacks
    [artist_msid]; record by record the first record would stay, the code
    returns nothing. *)
Lemma per_record_reading_fails :
  (enrich 10 partial_world [raw "a" "u" 1; raw "b" "u" 2] s0).1.1
  ≠ Returned (concat (imap (chunk_enriched_per_record partial_world)
                        (chunked [raw "a" "u" 1; raw "b" "u" 2] 10))).
Proof. vm_compute. discriminate. Qed.

(** ** Parsing *)

Lemma parse_listens_eq from_json msb_listens submit s :
  (∀ r e, r ∈ msb_listens → from_json r = Raises e → e = ValueError) →
  parse_listens from_json msb_listens submit s =
    (Returned (submit ++ omap (parsed from_json) msb_listens), s, []).
Proof.
  revert submit. induction msb_listens as [|listen rest IH]; intros submit Hv.
  - simpl. by rewrite app_nil_r.
  - cbn [parse_listens]. unfold bind, try_except, parsed. simpl.
    destruct (from_json listen) as [l|e] eqn:E; simpl.
    + rewrite IH; [by rewrite <- app_assoc|]. intros r e Hr. apply Hv. by right.
    + rewrite (Hv listen e) by (done || by left). simpl.
      rewrite IH; [done|]. intros r e' Hr. apply Hv. by right.
Qed.

Lemma callback_split MAX from_json w tag listens s :
  callback MAX from_json w tag listens s =
    bind (enrich_and_parse MAX from_json w listens)
         (λ submit, bind (insert_to_listenstore w submit) (acknowledge w tag)) s.
Proof. unfold callback, enrich_and_parse, enrich. by rewrite bind_assoc. Qed.

(** C7, as the code has it: a record whose conversion raises [ValueError] is
    left out alone, the other records reach the insertion in their order,
    and the drop leaves no mark: parsing changes no field of [self] and
    emits no event. *)
Theorem parse_failures_dropped_silently MAX from_json w tag listens s msb_listens s1 t1 :
  enrich MAX w listens s = (Returned msb_listens, s1, t1) →
  (∀ r e, r ∈ msb_listens → from_json r = Raises e → e = ValueError) →
  parse_listens from_json msb_listens [] s1
    = (Returned (omap (parsed from_json) msb_listens), s1, [])
  ∧ callback MAX from_json w tag listens s
    = match bind (insert_to_listenstore w (omap (parsed from_json) msb_listens))
                 (acknowledge w tag) s1 with
      | (r, s2, t2) => (r, s2, t1 ++ t2)
      end.
Proof.
  intros He Hv. pose proof (parse_listens_eq from_json msb_listens [] s1 Hv) as Hp.
  simpl in Hp. split; [done|].
  rewrite callback_split. unfold enrich_and_parse.
  unfold bind at 1. unfold bind at 1. rewrite He, Hp.
  destruct (bind _ _ s1) as [[r s2] t2]. by rewrite app_nil_r.
Qed.

(** C7 as stated fails: a record is dropped and nothing is counted. *)
Lemma drops_not_counted : ¬ drops_are_counted sample_from_json.
Proof.
  intros H. destruct (H [malformed_raw] s0) as [Hs|Ht].
  - vm_compute. lia.
  - by apply Hs.
  - by apply Ht.
Qed.

(** ** Acknowledgment *)

Ltac emits_tac :=
  repeat match goal with
    | |- emits _ (bind _ _) => apply emits_bind
    | |- emits _ (try_except _ _ _) => apply emits_try_except
    | |- emits _ (publish_loop _ _ _) => apply emits_publish_loop
    | |- emits _ (call _ _) => apply emits_call
    | |- emits _ (call_unit _ _) => apply emits_call_unit
    | |- emits _ (log_error _) => apply emits_log_error
    | |- emits _ (emit _) => apply emits_emit
    | |- emits _ (connect_to_rabbitmq _) => apply emits_connect
    | |- emits _ (ret _) => apply emits_ret
    | |- emits _ (raise _) => apply emits_raise
    | |- emits _ (get _) => apply emits_get
    | |- emits _ (modify _) => apply emits_modify
    | |- emits _ (match ?x with _ => _ end) => destruct x
    | |- ∀ _, _ => intro
    | |- _ = _ => reflexivity
    end.

Lemma insert_emits_no_ack w data :
  emits (λ e, is_ack e = false) (insert_to_listenstore w data).
Proof. unfold insert_to_listenstore, submit_metrics_if_due. emits_tac. Qed.

Lemma augment_loop_emits_no_ack pairs augmented_listens :
  emits (λ e, is_ack e = false) (augment_loop pairs augmented_listens).
Proof.
  revert augmented_listens. induction pairs as [|[listen ids] rest IH]; intros acc; simpl.
  - apply emits_ret.
  - destruct (ids !! "recording_msid"); [destruct (ids !! "artist_msid")|];
      [apply IH|emits_tac..].
Qed.

Lemma lookup_chunks_emits_no_ack w call_no chunks msb_listens :
  emits (λ e, is_ack e = false) (lookup_chunks w call_no chunks msb_listens).
Proof.
  revert call_no msb_listens. induction chunks as [|chunk rest IH]; intros n acc; simpl.
  - apply emits_ret.
  - apply emits_bind; [|intros; apply IH].
    unfold messybrainz_lookup. emits_tac. apply augment_loop_emits_no_ack.
Qed.

Lemma parse_listens_emits_no_ack from_json msb_listens submit :
  emits (λ e, is_ack e = false) (parse_listens from_json msb_listens submit).
Proof.
  revert submit. induction msb_listens as [|listen rest IH]; intros submit; simpl.
  - apply emits_ret.
  - apply emits_bind; [|intros; apply IH]. emits_tac.
Qed.

Lemma enrich_and_parse_emits_no_ack MAX from_json w listens :
  emits (λ e, is_ack e = false) (enrich_and_parse MAX from_json w listens).
Proof.
  unfold enrich_and_parse, enrich. apply emits_bind.
  - apply lookup_chunks_emits_no_ack.
  - intros. apply parse_listens_emits_no_ack.
Qed.

Lemma no_ack_calls t : Forall (λ e, is_ack e = false) t → ack_calls t = O.
Proof. apply count_events_none. Qed.

Lemma no_ack_delivered tag t :
  Forall (λ e, is_ack e = false) t → acks_delivered tag t = O.
Proof.
  intros H. apply count_events_none. eapply Forall_impl; [exact H|].
  intros [] He; done.
Qed.

(** What [acknowledge] does once the broker takes the [basic_ack] after [k]
    closed connections. *)
Lemma acknowledge_delivered w tag r s k rest :
  r ≠ LISTEN_INSERT_ERROR_SENTINEL →
  ack_script w = closed k ++ None :: rest →
  ∃ t, acknowledge w tag r s = (Returned r, reconnected w k s, t)
    ∧ acks_delivered tag t = 1%nat ∧ ack_calls t = S k.
Proof.
  intros Hr Hs. unfold acknowledge. rewrite bool_decide_eq_false_2 by done.
  unfold bind. rewrite Hs, ack_loop_closed. simpl ack_loop. munfold. simpl.
  eexists. split; [reflexivity|]. rewrite app_nil_r.
  unfold acks_delivered, ack_calls. rewrite !count_events_app.
  rewrite count_retry_trace_none, count_retry_trace by done.
  unfold count_events. simpl. rewrite bool_decide_eq_true_2 by done.
  simpl. split; lia.
Qed.

Lemma acknowledge_returned w tag r s r' s' t :
  acknowledge w tag r s = (Returned r', s', t) →
  r' = r ∧ acks_delivered tag t = (if bool_decide (r = LISTEN_INSERT_ERROR_SENTINEL)
                               then O else 1%nat)
  ∧ (r = LISTEN_INSERT_ERROR_SENTINEL → ack_calls t = O).
Proof.
  unfold acknowledge. case_bool_decide as Hr.
  - intros H. unfold ret in H. by simplify_eq.
  - unfold bind. destruct (ack_loop w tag (ack_script w) s) as [[[x|e|] s1] t1] eqn:Ha;
      try discriminate.
    intros H. unfold ret in H. simplify_eq. split; [done|]. split; [|done].
    apply ack_loop_returned in Ha as (k & rest & _ & _ & ->).
    rewrite app_nil_r. unfold acks_delivered. rewrite count_events_app.
    rewrite count_retry_trace_none by done.
    unfold count_events. simpl. by rewrite bool_decide_eq_true_2.
Qed.

(** C1: given the Listens that reach the insertion and a return [r] of
    [insert_to_listenstore]: when [r] is the sentinel, [callback] returns it
    with no call to [basic_ack]; when it is not, and the broker takes the
    [basic_ack] after [k] closed connections, [callback] returns [r] with
    exactly one acknowledgment delivered, in [k + 1] calls; and in every
    run in which [callback] returns, the message is acknowledged (once) if
    and only if [r] is not the sentinel. *)
Theorem acknowledged_iff_not_sentinel MAX from_json w tag listens s submit sa ta r sb tb :
  enrich_and_parse MAX from_json w listens s = (Returned submit, sa, ta) →
  insert_to_listenstore w submit sa = (Returned r, sb, tb) →
  (r = LISTEN_INSERT_ERROR_SENTINEL →
     callback MAX from_json w tag listens s = (Returned r, sb, ta ++ tb)
     ∧ ack_calls (ta ++ tb) = O)
  ∧ (r ≠ LISTEN_INSERT_ERROR_SENTINEL →
     ∀ k rest, ack_script w = closed k ++ None :: rest →
       ∃ s2 t, callback MAX from_json w tag listens s = (Returned r, s2, t)
         ∧ acks_delivered tag t = 1%nat ∧ ack_calls t = S k)
  ∧ (∀ r' s' t, callback MAX from_json w tag listens s = (Returned r', s', t) →
       r' = r
       ∧ (acks_delivered tag t = 1%nat ↔ r ≠ LISTEN_INSERT_ERROR_SENTINEL)
       ∧ (acks_delivered tag t = O ↔ r = LISTEN_INSERT_ERROR_SENTINEL)).
Proof.
  intros He Hi.
  pose proof (enrich_and_parse_emits_no_ack MAX from_json w listens s) as H0.
  pose proof (insert_emits_no_ack w submit sa) as H1.
  rewrite He in H0. rewrite Hi in H1. simpl in H0, H1.
  assert (Hsplit : callback MAX from_json w tag listens s =
            match acknowledge w tag r sb with (r', s2, t2) => (r', s2, ta ++ tb ++ t2) end).
  { rewrite callback_split. unfold bind at 1. rewrite He.
    unfold bind at 1. rewrite Hi. by destruct (acknowledge w tag r sb) as [[r' s2] t2]. }
  split_and!.
  - intros ->. rewrite Hsplit. unfold acknowledge. simpl. unfold ret.
    rewrite app_nil_r. split; [done|].
    apply no_ack_calls, Forall_app. done.
  - intros Hr k rest Hs.
    destruct (acknowledge_delivered w tag r sb k rest Hr Hs) as (t & Ht & Hd & Hc).
    rewrite Hsplit, Ht. eexists _, _. split; [reflexivity|].
    unfold acks_delivered, ack_calls in *. rewrite !count_events_app, Hd, Hc.
    fold (acks_delivered tag ta) (acks_delivered tag tb) (ack_calls ta) (ack_calls tb).
    by rewrite !no_ack_delivered, !no_ack_calls.
  - intros r' s' t Hc. rewrite Hsplit in Hc.
    destruct (acknowledge w tag r sb) as [[r2 s2] t2] eqn:Ha. simplify_eq.
    apply acknowledge_returned in Ha as (-> & Hd & _). split; [done|].
    unfold acks_delivered in *. rewrite !count_events_app, Hd.
    fold (acks_delivered tag ta) (acks_delivered tag tb).
    rewrite !no_ack_delivered by done.
    case_bool_decide; simpl; split; split; try done; try lia.
Qed.

(** ** Side channels *)

Lemma publish_loop_with_increment a w script unique s :
  publish_loop (with_increment a w) script unique s = publish_loop w script unique s.
Proof.
  revert s. induction script as [|x rest IH]; intros s; [done|].
  simpl. munfold. simpl. destruct x as [e|]; simpl; [|done].
  destruct (is_ConnectionClosed e); [|done]. by rewrite IH.
Qed.

(** The per-day counter is best effort: whether it raises or not, the call
    returns the same value in the same state. *)
Lemma increment_failure_swallowed a w data s :
  (insert_to_listenstore (with_increment a w) data s).1
  = (insert_to_listenstore w data s).1.
Proof.
  destruct data as [|l data]; [done|].
  unfold insert_to_listenstore, submit_metrics_if_due. munfold.
  cbn -[publish_loop compute_unique len Z.add].
  destruct (ls_insert w (l :: data)) as [rows|e]; cbn -[publish_loop compute_unique len Z.add].
  2: by destruct (is_OperationalError e).
  destruct rows as [|r rows]; [done|].
  destruct (compute_unique (l :: data) (r :: rows)) as [|u unique];
    cbn -[publish_loop len Z.add].
  { by destruct a, (increment_listen_count_for_day w). }
  destruct a, (increment_listen_count_for_day w); cbn -[publish_loop len Z.add];
    rewrite publish_loop_with_increment;
    destruct (publish_loop w (publish_script w) (u :: unique) _) as [[[[]|e2|] s2] t2];
    cbn -[len Z.add]; try done;
    destruct (update_recent_listens w); cbn -[len Z.add]; try done;
    by case_bool_decide.
Qed.

(** C4 at the failing input: one new Listen, the cache update raises. The
    exception leaves [insert_to_listenstore] and [callback], no count is
    returned and no [basic_ack] is made; the same failure of the per-day
    counter is swallowed and the message is acknowledged. *)
Theorem recent_cache_failure_escapes :
  insert_to_listenstore recent_failure_world [listen1] s0
  = (Raised (OtherError "redis.exceptions.ConnectionError"),
     set_incoming_listens 1 s0,
     [EvInsert [listen1]; EvIncrementDay 1;
      EvPublish (mkChannel O) [listen1] true; EvUpdateRecent [listen1]])
  ∧ (callback 10 sample_from_json recent_failure_world 7 [raw "song" "alice" 100] s0).1.1
    = Raised (OtherError "redis.exceptions.ConnectionError")
  ∧ ack_calls (callback 10 sample_from_json recent_failure_world 7
                 [raw "song" "alice" 100] s0).2 = O
  ∧ (callback 10 sample_from_json increment_failure_world 7 [raw "song" "alice" 100] s0).1.1
    = Returned 1
  ∧ acks_delivered 7 (callback 10 sample_from_json increment_failure_world 7
                        [raw "song" "alice" 100] s0).2 = 1%nat.
Proof. split_and!; by vm_compute. Qed.

(** ** The publish retry *)

(** While the broker keeps closing the connection the publish is retried:
    after [k] closed connections the loop has made [k] calls, all on the
    channel [self.unique_ch] held at the start, and has not given up. *)
Lemma publish_never_abandoned w k unique s :
  publish_loop w (closed k) unique s
  = (Retrying, reconnected w k s,
     retry_trace w (EvPublish (unique_ch s) unique false) k (connection s)).
Proof.
  rewrite <- (app_nil_r (closed k)), publish_loop_closed. simpl. munfold.
  by rewrite app_nil_r.
Qed.

Lemma publish_retried_until_taken w k rest unique s :
  publish_loop w (closed k ++ None :: rest) unique s
  = (Returned tt, reconnected w k s,
     retry_trace w (EvPublish (unique_ch s) unique false) k (connection s)
     ++ [EvPublish (unique_ch s) unique true]).
Proof.
  rewrite publish_loop_closed. simpl. munfold. simpl.
  destruct (reconnected_fields w k s) as (_ & -> & _). done.
Qed.

(** Reconnecting never replaces the channel the publish goes to. *)
Lemma publish_keeps_channel w script unique s :
  unique_ch (publish_loop w script unique s).1.2 = unique_ch s.
Proof. by apply (keeps_publish_loop unique_ch). Qed.

(** C8 at the failing input: one new Listen, the broker closes the
    connection under the first publish. The connection is replaced, the
    same body is published again and the batch returns its length, but the
    second publish goes to the channel opened on the old connection:
    [self.unique_ch] is not fresh. *)
Theorem retry_publishes_on_stale_channel :
  insert_to_listenstore closed_once_world [listen1] s0
  = (Returned 1,
     set_connection (Some 1%nat) (set_unique_listens 1 (set_incoming_listens 1 s0)),
     [EvInsert [listen1]; EvIncrementDay 1;
      EvPublish (mkChannel O) [listen1] false; EvConnect 1%nat;
      EvPublish (mkChannel O) [listen1] true;
      EvUpdateRecent [listen1]; EvMonotonic])
  ∧ fresh_channel s0 (unique_ch s0)
  ∧ ¬ fresh_channel (insert_to_listenstore closed_once_world [listen1] s0).1.2
        (unique_ch (insert_to_listenstore closed_once_world [listen1] s0).1.2).
Proof.
  split_and!.
  - by vm_compute.
  - done.
  - vm_compute. discriminate.
Qed.

(** * Further properties of the code *)

(** ** Further properties of the reconciliation *)

(** X1: two Listens whose reconciliation keys (line 193) are equal have the
    same timestamp, and the same text after it: the track name, a hyphen and
    the user name, joined. *)
Theorem equal_keys_equal_timestamps (l1 l2 : Listen) :
  listen_key l1 = listen_key l2 →
  ts_since_epoch l1 = ts_since_epoch l2
  ∧ track_name (data l1) +:+ "-" +:+ user_name l1
    = track_name (data l2) +:+ "-" +:+ user_name l2.
Proof.
  unfold listen_key, format_key. intros H. by apply pretty_Z_then_dash in H.
Qed.

Lemma key_matched_all batch rows :
  Forall (λ l, listen_triple l ∈ rows) batch → key_matched batch rows = batch.
Proof.
  unfold key_matched. induction 1 as [|l batch Hl _ IH]; [done|].
  rewrite filter_cons, decide_True, IH; [done|].
  apply list_elem_of_fmap. exists (listen_triple l). split; [|done].
  symmetry. by apply triple_key.
Qed.

(** X2: when the storage reports the triple (timestamp, track name, user
    name) of every Listen of the batch among the inserted rows, the unique
    subset of lines 188-196 is the whole batch, in its order. *)
Theorem unique_is_whole_batch_when_all_reported (batch : list Listen) (rows_inserted : list Row) :
  Forall (λ l, listen_triple l ∈ rows_inserted) batch →
  compute_unique batch rows_inserted = batch.
Proof. intros H. rewrite compute_unique_key_matched. by apply key_matched_all. Qed.

(** X3: two Listens of a batch whose keys are equal are both in the unique
    subset or both left out, whatever rows the storage reports. *)
Theorem equal_keys_selected_together (batch : list Listen) (rows_inserted : list Row) l1 l2 :
  l1 ∈ batch → l2 ∈ batch → listen_key l1 = listen_key l2 →
  (l1 ∈ compute_unique batch rows_inserted ↔ l2 ∈ compute_unique batch rows_inserted).
Proof.
  intros H1 H2 Hk. rewrite compute_unique_key_matched. unfold key_matched.
  rewrite !list_elem_of_filter, Hk. tauto.
Qed.

(** X4: the selection of lines 192-196 goes Listen by Listen: the unique
    subset of two batches in a row is the one of the first followed by the
    one of the second; selecting again from a unique subset changes nothing;
    and a unique subset is never longer than its batch. *)
Theorem unique_of_concatenation (batch1 batch2 : list Listen) (rows_inserted : list Row) :
  compute_unique (batch1 ++ batch2) rows_inserted
  = compute_unique batch1 rows_inserted ++ compute_unique batch2 rows_inserted
  ∧ compute_unique (compute_unique batch1 rows_inserted) rows_inserted
    = compute_unique batch1 rows_inserted
  ∧ (length (compute_unique batch1 rows_inserted) ≤ length batch1)%nat.
Proof.
  rewrite !compute_unique_key_matched. unfold key_matched. split_and!.
  - apply filter_app.
  - rewrite list_filter_filter. apply list_filter_iff. tauto.
  - apply length_filter.
Qed.

(** ** The lookup request *)

Lemma copy_key_lookup key ai d k :
  copy_key key ai d !! k
  = if decide (key = k) then match ai !! key with Some v => Some v | None => d !! k end
    else d !! k.
Proof.
  unfold copy_key. destruct (ai !! key) eqn:E.
  - rewrite lookup_insert. by case_decide.
  - by case_decide.
Qed.

Lemma insert_dom key (v : jval) (d : gmap string jval) (X : gset string) :
  key ∈ X → dom d ⊆ X → dom (<[key := v]> d) ⊆ X.
Proof.
  intros Hk Hd. rewrite dom_insert_L. apply union_least; [|done].
  by apply singleton_subseteq_l.
Qed.

Lemma copy_key_dom key ai d (X : gset string) :
  key ∈ X → dom d ⊆ X → dom (copy_key key ai d) ⊆ X.
Proof.
  intros Hk Hd. unfold copy_key. destruct (ai !! key); [by apply insert_dom|done].
Qed.

(** X5: the lookup request built for a record (lines 104-122) always has the
    keys [artist] and [title], holding the record's [artist_name] and
    [track_name]; it has [release] exactly when the record has a
    [release_name], holding it; and it has no key besides [artist], [title],
    [release], [artist_mbids], [release_mbid], [recording_mbid],
    [track_number] and [spotify_id]. *)
Theorem request_carries_names_and_known_keys (listen : RawRecord) :
  messy_dict_of listen !! "artist" = Some (JStr (artist_name (track_metadata listen)))
  ∧ messy_dict_of listen !! "title" = Some (JStr (track_name (track_metadata listen)))
  ∧ messy_dict_of listen !! "release" = JStr <$> release_name (track_metadata listen)
  ∧ dom (messy_dict_of listen) ⊆ request_keys.
Proof.
  unfold messy_dict_of. cbv zeta.
  destruct (track_metadata listen) as [artist title release ai]. simpl.
  split_and!.
  - destruct ai as [ai|].
    + rewrite !copy_key_lookup. repeat (case_decide; [done|]).
      destruct (ai !! "artist_mbids") as [[]|]; destruct release;
        by simplify_map_eq.
    + destruct release; by simplify_map_eq.
  - destruct ai as [ai|].
    + rewrite !copy_key_lookup. repeat (case_decide; [done|]).
      destruct (ai !! "artist_mbids") as [[]|]; destruct release;
        by simplify_map_eq.
    + destruct release; by simplify_map_eq.
  - destruct ai as [ai|].
    + rewrite !copy_key_lookup. repeat (case_decide; [done|]).
      destruct (ai !! "artist_mbids") as [[]|]; destruct release;
        by simplify_map_eq.
    + destruct release; by simplify_map_eq.
  - destruct ai as [ai|]; [destruct (ai !! "artist_mbids") as [[]|]|];
      destruct release;
      repeat first [ apply copy_key_dom | apply insert_dom
                   | by vm_compute | by rewrite dom_empty_L ].
Qed.

Lemma sorted_perm l l' : l ≡ₚ l' → sorted l = sorted l'.
Proof.
  intros H. unfold sorted. apply (Sorted_unique String.le).
  - apply Sorted_merge_sort, _.
  - apply Sorted_merge_sort, _.
  - by rewrite !merge_sort_Permutation.
Qed.

(** X6: a list of artist MBIDs goes into the request sorted (line 113): the
    request holds a sorted rearrangement of the record's list, so two records
    that differ only in the order of their artist MBIDs send the same
    request. *)
Theorem request_sorts_artist_mbids (listen : RawRecord) (mbids mbids' : list string) :
  let with_mbids l := set_additional_info "artist_mbids" (JList l) listen in
  (∃ l, messy_dict_of (with_mbids mbids) !! "artist_mbids" = Some (JList l)
        ∧ Sorted String.le l ∧ l ≡ₚ mbids)
  ∧ (mbids ≡ₚ mbids' → messy_dict_of (with_mbids mbids) = messy_dict_of (with_mbids mbids')).
Proof.
  cbv zeta. unfold messy_dict_of, set_additional_info. cbv zeta.
  destruct (track_metadata listen) as [artist title release ai]. simpl.
  rewrite !lookup_insert_eq. split.
  - exists (sorted mbids). split_and!.
    + rewrite !copy_key_lookup. repeat (case_decide; [done|]). by simplify_map_eq.
    + apply Sorted_merge_sort, _.
    + apply merge_sort_Permutation.
  - intros H. rewrite (sorted_perm _ _ H).
    unfold copy_key. by rewrite !lookup_insert_ne by done.
Qed.

(** ** Augmenting a record *)

(** X7: what lines 133-149 do to a record given a response with both
    mandatory identifiers: [recording_msid] is set on the record and
    [artist_msid] in its [additional_info]; [release_msid] is set there when
    the response has one and keeps its former value (or absence) when not;
    every other field of the record, the three names of its track metadata
    and every other key of [additional_info] stay as they were. *)
Theorem augment_writes_ids_and_keeps_the_rest listen ids r a :
  let out := augment listen ids r a in
  let ai := default ∅ (additional_info (track_metadata listen)) in
  fields out !! "recording_msid" = Some r
  ∧ (∀ k, k ≠ "recording_msid" → fields out !! k = fields listen !! k)
  ∧ artist_name (track_metadata out) = artist_name (track_metadata listen)
  ∧ track_name (track_metadata out) = track_name (track_metadata listen)
  ∧ release_name (track_metadata out) = release_name (track_metadata listen)
  ∧ ∃ ai', additional_info (track_metadata out) = Some ai'
      ∧ ai' !! "artist_msid" = Some a
      ∧ ai' !! "release_msid"
        = match ids !! "release_msid" with Some v => Some v | None => ai !! "release_msid" end
      ∧ (∀ k, k ≠ "artist_msid" → k ≠ "release_msid" → ai' !! k = ai !! k).
Proof.
  cbv zeta. unfold augment, set_additional_info, set_recording_msid,
    ensure_additional_info. cbv zeta.
  destruct (ids !! "release_msid") as [v|]; simpl.
  - split_and!; try done.
    + by rewrite lookup_insert_eq.
    + intros k Hk. by rewrite lookup_insert_ne.
    + eexists. split; [done|]. split_and!.
      * by rewrite lookup_insert_ne, lookup_insert_eq.
      * by rewrite lookup_insert_eq.
      * intros k H1 H2. by rewrite !lookup_insert_ne.
  - split_and!; try done.
    + by rewrite lookup_insert_eq.
    + intros k Hk. by rewrite lookup_insert_ne.
    + eexists. split; [done|]. split_and!.
      * by rewrite lookup_insert_eq.
      * by rewrite lookup_insert_ne.
      * intros k H1 H2. by rewrite !lookup_insert_ne.
Qed.

(** ** Sub-batches *)

Lemma chunked_go_shape {A} fuel n (l : list A) :
  (0 < n)%nat → (length l ≤ fuel)%nat →
  length (chunked_go fuel n l) = ((length l + n - 1) / n)%nat
  ∧ Forall (λ chunk, (0 < length chunk ≤ n)%nat) (chunked_go fuel n l)
  ∧ (∀ i chunk, chunked_go fuel n l !! i = Some chunk →
       (S i < length (chunked_go fuel n l))%nat → length chunk = n)
  ∧ (∀ i chunk, chunked_go fuel n l !! i = Some chunk →
       chunk = take n (drop (i * n) l)).
Proof.
  intros Hn. revert l. induction fuel as [|fuel IH]; intros l Hl.
  - destruct l; [|simpl in Hl; lia]. simpl. split_and!; try done.
    symmetry. apply Nat.div_small. lia.
  - destruct l as [|x l].
    { simpl. split_and!; try done. symmetry. apply Nat.div_small. lia. }
    cbn [chunked_go].
    assert (Hd : (length (drop n (x :: l)) ≤ fuel)%nat).
    { rewrite length_drop. simpl in *. lia. }
    destruct (IH _ Hd) as (Hlen & Hall & Hfull & Hat).
    split_and!.
    + assert (Hm : (0 < length (x :: l))%nat) by (simpl; lia).
      set (m := length (x :: l)) in *. cbn [length]. rewrite Hlen, length_drop.
      fold m. clearbody m.
      destruct (decide (n ≤ m)%nat) as [Hle|Hgt].
      * assert (E : (m + n - 1 = (m - n + n - 1) + 1 * n)%nat) by lia.
        rewrite E, Nat.div_add by lia. lia.
      * assert (E0 : (m - n = 0)%nat) by lia. rewrite E0.
        rewrite (Nat.div_small (0 + n - 1)) by lia.
        assert (E : (m + n - 1 = (m - 1) + 1 * n)%nat) by lia.
        rewrite E, Nat.div_add by lia.
        rewrite Nat.div_small by lia. done.
    + constructor; [|done]. rewrite length_take. simpl. lia.
    + intros [|i] chunk Hi Hlt.
      * simpl in Hi. simplify_eq. rewrite length_take.
        cbn [length] in Hlt. rewrite Hlen, length_drop in Hlt.
        destruct (decide (n ≤ length (x :: l))%nat); [lia|].
        replace (length (x :: l) - n)%nat with O in Hlt by lia.
        rewrite Nat.div_small in Hlt by lia. lia.
      * simpl in Hi. apply (Hfull i chunk Hi). cbn [length] in Hlt. lia.
    + intros [|i] chunk Hi.
      * simpl in Hi. by simplify_eq.
      * simpl in Hi. rewrite (Hat i chunk Hi), drop_drop. done.
Qed.

(** The shape of the sub-batches of a message. *)
Lemma chunked_shape {A} (l : list A) (n : nat) :
  (0 < n)%nat →
  concat (chunked l n) = l
  ∧ length (chunked l n) = ((length l + n - 1) / n)%nat
  ∧ Forall (λ chunk, (0 < length chunk ≤ n)%nat) (chunked l n)
  ∧ (∀ i chunk, chunked l n !! i = Some chunk →
       (S i < length (chunked l n))%nat → length chunk = n).
Proof.
  intros Hn. split; [by apply chunked_concat|].
  unfold chunked. destruct n as [|n]; [lia|].
  destruct (chunked_go_shape (length l) (S n) l Hn (le_n _)) as (H1 & H2 & H3 & _).
  done.
Qed.

(** ** The lookup calls *)

Lemma lookup_requests_app t1 t2 :
  lookup_requests (t1 ++ t2) = lookup_requests t1 ++ lookup_requests t2.
Proof. apply omap_app. Qed.

Lemma lookup_requests_events w i chunk :
  lookup_requests (lookup_events w i chunk) = [messy_dict_of <$> chunk].
Proof.
  unfold lookup_events. cbv zeta.
  destruct (submit_listens w i (messy_dict_of <$> chunk)) as [payload|e]; [|done].
  by destruct (mapM augment_pair (zip chunk payload)).
Qed.

Lemma lookup_requests_chunks w n chunks :
  lookup_requests (concat (imap (λ i, lookup_events w (n + i)) chunks))
  = (λ chunk : list RawRecord, messy_dict_of <$> chunk) <$> chunks.
Proof.
  revert n. induction chunks as [|chunk rest IH]; intros n; [done|].
  rewrite imap_cons. cbn [concat]. rewrite lookup_requests_app, lookup_requests_events.
  rewrite fmap_cons. simpl. f_equal.
  rewrite <- (IH (S n)). f_equal. f_equal. apply imap_ext. intros i x _. simpl.
  f_equal. lia.
Qed.

Lemma concat_fmap_fmap {A B} (f : A → B) (ls : list (list A)) :
  concat ((λ l : list A, f <$> l) <$> ls) = f <$> concat ls.
Proof.
  induction ls as [|l ls IH]; [done|]. rewrite fmap_cons. cbn [concat].
  by rewrite fmap_app, IH.
Qed.

(** X8: for a positive sub-batch size, and a lookup service that only fails
    with the two exceptions [messybrainz_lookup] handles, the enrichment of a
    message (lines 75-77) calls the service once per sub-batch, in order, with
    the requests of that sub-batch's records: the requests taken together are
    the requests of all records of the message, there are
    ceil(len(listens) / MAX) calls, and no call is empty or carries more than
    MAX requests. *)
Theorem one_lookup_per_sub_batch MAX w (listens : list RawRecord) s :
  (0 < MAX)%nat →
  (∀ i request e, submit_listens w i request = Raises e → is_lookup_failure e = true) →
  let requests := lookup_requests (enrich MAX w listens s).2 in
  requests = (λ chunk : list RawRecord, messy_dict_of <$> chunk) <$> chunked listens MAX
  ∧ concat requests = messy_dict_of <$> listens
  ∧ length requests = ((length listens + MAX - 1) / MAX)%nat
  ∧ Forall (λ request, (0 < length request ≤ MAX)%nat) requests.
Proof.
  intros Hn Hw. cbv zeta. unfold enrich.
  rewrite (lookup_chunks_eq _ _ _ _ _ Hw). simpl.
  rewrite (lookup_requests_chunks w 0).
  destruct (chunked_shape listens MAX Hn) as (Hc & Hl & Hb & _).
  split_and!.
  - done.
  - by rewrite concat_fmap_fmap, Hc.
  - by rewrite length_fmap.
  - apply Forall_fmap. eapply Forall_impl; [exact Hb|].
    intros chunk. simpl. by rewrite length_fmap.
Qed.

(** X9: when the lookup service answers with a payload whose entries all
    carry both mandatory identifiers, [messybrainz_lookup] returns one
    augmented record per zipped pair: min(len(listens), len(payload)) of
    them. A payload shorter than the sub-batch thus drops the records past
    its end, and nothing is logged: the only call is the lookup itself. *)
Theorem short_payload_drops_surplus w call_no (chunk : list RawRecord) payload s :
  submit_listens w call_no (messy_dict_of <$> chunk) = Ok payload →
  Forall has_both_ids payload →
  ∃ out,
    messybrainz_lookup w call_no chunk s
    = (Returned out, s, [EvLookup (messy_dict_of <$> chunk)])
    ∧ length out = (length chunk `min` length payload)%nat
    ∧ Forall2 (λ p listen, augment_pair p = Some listen) (zip chunk payload) out.
Proof.
  intros Hs Hp. rewrite messybrainz_lookup_eq, Hs.
  unfold chunk_enriched, lookup_events. cbv zeta. rewrite Hs.
  assert (Hz : is_Some (mapM augment_pair (zip chunk payload))).
  { apply mapM_is_Some_2. apply Forall_forall. intros [listen ids] Hin.
    apply elem_of_zip_r in Hin. rewrite Forall_forall in Hp.
    destruct (Hp ids Hin) as [[r Hr] [a Ha]]. simpl.
    unfold augment_pair. simpl. rewrite Hr, Ha. eauto. }
  destruct Hz as [out Hout]. rewrite Hout. simpl. exists out. split_and!.
  - done.
  - apply length_mapM in Hout. rewrite <- Hout. apply length_zip_with.
  - by apply mapM_Some.
Qed.

(** X10: an exception of the lookup service other than the two that
    [messybrainz_lookup] handles, raised by the first lookup of a message,
    leaves [callback]: nothing else is called (no insert, no publish, no
    acknowledgment) and [self] is unchanged. *)
Theorem unexpected_lookup_exception_escapes MAX from_json w tag
    (listens : list RawRecord) e s :
  (0 < MAX)%nat → listens ≠ [] →
  submit_listens w 0 (messy_dict_of <$> take MAX listens) = Raises e →
  is_lookup_failure e = false →
  callback MAX from_json w tag listens s
  = (Raised e, s, [EvLookup (messy_dict_of <$> take MAX listens)]).
Proof.
  intros Hn Hl Hs He. unfold callback, chunked.
  destruct MAX as [|n]; [lia|]. destruct listens as [|x l]; [done|].
  cbn [length chunked_go lookup_chunks]. unfold bind at 1. unfold bind at 1.
  rewrite messybrainz_lookup_eq, Hs, He. done.
Qed.

(** ** Both retry loops, whatever the broker answers *)

Lemma publish_loop_outcome w script unique s :
  ∃ k tail res,
    publish_loop w script unique s
    = (res, reconnected w k s,
       retry_trace w (EvPublish (unique_ch s) unique false) k (connection s) ++ tail)
    ∧ ((res = Retrying ∧ tail = [])
       ∨ (res = Returned tt ∧ tail = [EvPublish (unique_ch s) unique true])
       ∨ (∃ e, res = Raised e ∧ is_ConnectionClosed e = false
             ∧ tail = [EvPublish (unique_ch s) unique false])).
Proof.
  destruct (script_split script) as (k & rest & -> & Hrest).
  rewrite publish_loop_closed.
  destruct (reconnected_fields w k s) as (_ & Hu & _).
  destruct Hrest as [->|[[rest' ->]|(e & rest' & -> & He)]].
  - exists k, [], Retrying. split; [done|]. by left.
  - exists k, [EvPublish (unique_ch s) unique true], (Returned tt). split.
    + simpl. munfold. simpl. by rewrite Hu.
    + right. by left.
  - exists k, [EvPublish (unique_ch s) unique false], (Raised e). split.
    + rewrite (publish_loop_raises _ _ _ _ _ He). by rewrite Hu.
    + right. right. by exists e.
Qed.

Lemma ack_loop_outcome w tag script s :
  ∃ k tail res,
    ack_loop w tag script s
    = (res, reconnected w k s,
       retry_trace w (EvAck (incoming_ch s) tag false) k (connection s) ++ tail)
    ∧ ((res = Retrying ∧ tail = [])
       ∨ (res = Returned tt ∧ tail = [EvAck (incoming_ch s) tag true])
       ∨ (∃ e, res = Raised e ∧ is_ConnectionClosed e = false
             ∧ tail = [EvAck (incoming_ch s) tag false])).
Proof.
  destruct (script_split script) as (k & rest & -> & Hrest).
  rewrite ack_loop_closed.
  destruct (reconnected_fields w k s) as (Hi & _).
  destruct Hrest as [->|[[rest' ->]|(e & rest' & -> & He)]].
  - exists k, [], Retrying. split; [done|]. by left.
  - exists k, [EvAck (incoming_ch s) tag true], (Returned tt). split.
    + simpl. munfold. simpl. by rewrite Hi.
    + right. by left.
  - exists k, [EvAck (incoming_ch s) tag false], (Raised e). split.
    + rewrite (ack_loop_raises _ _ _ _ _ He). by rewrite Hi.
    + right. right. by exists e.
Qed.

(** What [acknowledge] leaves in the trace, whatever the broker answers: only
    [basic_ack] calls and reconnects, and a delivered acknowledgment exactly
    when it returns a count. *)
Lemma acknowledge_outcome w tag r s res s' t :
  acknowledge w tag r s = (res, s', t) →
  Forall (λ e, is_ack_or_connect e = true) t
  ∧ acks_delivered tag t
    = match res with
      | Returned r' => if bool_decide (r' = LISTEN_INSERT_ERROR_SENTINEL) then O else 1%nat
      | _ => O
      end
  ∧ (∀ r', res = Returned r' → r' = r)
  ∧ incoming_listens s' = incoming_listens s
  ∧ unique_listens s' = unique_listens s
  ∧ metric_submission_time s' = metric_submission_time s
  ∧ incoming_ch s' = incoming_ch s
  ∧ unique_ch s' = unique_ch s.
Proof.
  unfold acknowledge. case_bool_decide as Hr.
  - unfold ret. intros H. simplify_eq.
    rewrite bool_decide_eq_true_2 by done. split_and!; try done.
    intros r' Hr'. by simplify_eq.
  - unfold bind.
    destruct (ack_loop_outcome w tag (ack_script w) s) as (k & tail & res0 & -> & Hres).
    destruct (reconnected_fields w k s) as (Hic & Huc & Hi & Hu & Hm).
    assert (Hq : Forall (λ e, is_ack_or_connect e = true)
                   (retry_trace w (EvAck (incoming_ch s) tag false) k (connection s))).
    { eapply Forall_impl;
        [apply (retry_trace_quiet (λ e, negb (is_ack_or_connect e))); done|].
      intros e He. by apply negb_false_iff. }
    assert (Hz : acks_delivered tag
                   (retry_trace w (EvAck (incoming_ch s) tag false) k (connection s)) = O)
      by (by apply count_retry_trace_none).
    destruct Hres as [[-> ->]|[[-> ->]|(e & -> & He & ->)]].
    + intros H. simplify_eq. rewrite app_nil_r. by split_and!.
    + unfold ret. intros H. simplify_eq.
      rewrite app_nil_r, bool_decide_eq_false_2 by done. split_and!; try done.
      * apply Forall_app. split; [done|]. by repeat constructor.
      * unfold acks_delivered in *. rewrite count_events_app, Hz.
        unfold count_events. simpl. by rewrite bool_decide_eq_true_2.
      * intros r' Hr'. by simplify_eq.
    + intros H. simplify_eq. split_and!; try done.
      * apply Forall_app. split; [done|]. by repeat constructor.
      * unfold acks_delivered in *. rewrite count_events_app, Hz. done.
Qed.

(** ** Enrichment and parsing never touch [self] *)

Ltac keeps_tac :=
  repeat match goal with
    | |- keeps _ (bind _ _) => apply keeps_bind
    | |- keeps _ (try_except _ _ _) => apply keeps_try_except
    | |- keeps _ (call _ _) => apply keeps_call
    | |- keeps _ (call_unit _ _) => apply keeps_call_unit
    | |- keeps _ (log_error _) => apply keeps_log_error
    | |- keeps _ (emit _) => apply keeps_emit
    | |- keeps _ (ret _) => apply keeps_ret
    | |- keeps _ (raise _) => apply keeps_raise
    | |- keeps _ (get _) => apply keeps_get
    | |- keeps _ (match ?x with _ => _ end) => destruct x
    | |- ∀ _, _ => intro
    end.

Lemma keeps_augment_loop {B} (f : Self → B) pairs augmented_listens :
  keeps f (augment_loop pairs augmented_listens).
Proof.
  revert augmented_listens. induction pairs as [|[listen ids] rest IH]; intros acc; simpl.
  - apply keeps_ret.
  - destruct (ids !! "recording_msid"); [destruct (ids !! "artist_msid")|];
      [apply IH|keeps_tac..].
Qed.

Lemma keeps_lookup_chunks {B} (f : Self → B) w call_no chunks msb_listens :
  keeps f (lookup_chunks w call_no chunks msb_listens).
Proof.
  revert call_no msb_listens. induction chunks as [|chunk rest IH]; intros n acc; simpl.
  - apply keeps_ret.
  - apply keeps_bind; [|intros; apply IH].
    unfold messybrainz_lookup. keeps_tac. apply keeps_augment_loop.
Qed.

Lemma keeps_parse_listens {B} (f : Self → B) from_json msb_listens submit :
  keeps f (parse_listens from_json msb_listens submit).
Proof.
  revert submit. induction msb_listens as [|listen rest IH]; intros submit; simpl.
  - apply keeps_ret.
  - apply keeps_bind; [|intros; apply IH]. keeps_tac.
Qed.

Lemma enrich_and_parse_keeps_self MAX from_json w listens s :
  (enrich_and_parse MAX from_json w listens s).1.2 = s.
Proof.
  apply (keeps_bind id).
  - apply keeps_lookup_chunks.
  - intros. apply keeps_parse_listens.
Qed.

(** ** Invariants of the counters and the deadline *)

Lemma compute_unique_length data rows : len (compute_unique data rows) ≤ len data.
Proof.
  rewrite compute_unique_key_matched. unfold key_matched, len.
  pose proof (length_filter (λ l, listen_key l ∈ row_key <$> rows) data). lia.
Qed.

Lemma insert_path_counters_ok w data s res s' t :
  insert_path w data s res s' t → counters_ok s → counters_ok s'.
Proof.
  unfold counters_ok. intros Hp Hs.
  pose proof (len_nonneg data) as Hd.
  assert (Hc : ∀ k, 0 ≤ unique_listens (reconnected w k (counted (len data) s))
                     ≤ incoming_listens (reconnected w k (counted (len data) s))).
  { intros k. destruct (reconnected_fields w k (counted (len data) s))
      as (_ & _ & -> & -> & _). simpl. lia. }
  assert (Hpub : ∀ rows k, 0 ≤ unique_listens (published w s data rows k)
                            ≤ incoming_listens (published w s data rows k)).
  { intros rows k. unfold published.
    destruct (batch_state_fields w k (len data)
                (unique_listens s + len (compute_unique data rows)) s)
      as (-> & -> & _).
    pose proof (compute_unique_length data rows).
    pose proof (len_nonneg (compute_unique data rows)). lia. }
  destruct Hp; try done; try apply Hc; try apply Hpub; simpl; lia.
Qed.

Lemma callback_cases MAX from_json w tag listens s :
  match enrich_and_parse MAX from_json w listens s with
  | (Returned submit, _, ta) =>
      match insert_to_listenstore w submit s with
      | (Returned r, si, ti) =>
          match acknowledge w tag r si with
          | (res, s', tk) =>
              callback MAX from_json w tag listens s = (res, s', ta ++ ti ++ tk)
          end
      | (Raised e, si, ti) =>
          callback MAX from_json w tag listens s = (Raised e, si, ta ++ ti)
      | (Retrying, si, ti) =>
          callback MAX from_json w tag listens s = (Retrying, si, ta ++ ti)
      end
  | (Raised e, _, ta) => callback MAX from_json w tag listens s = (Raised e, s, ta)
  | (Retrying, _, ta) => callback MAX from_json w tag listens s = (Retrying, s, ta)
  end.
Proof.
  pose proof (enrich_and_parse_keeps_self MAX from_json w listens s) as Hk.
  destruct (enrich_and_parse MAX from_json w listens s) as [[[submit|e|] sa] ta] eqn:Hep;
    simpl in Hk; subst sa.
  2, 3: by rewrite callback_split; unfold bind at 1; rewrite Hep.
  destruct (insert_to_listenstore w submit s) as [[[r|e|] si] ti] eqn:Hi.
  2, 3: by rewrite callback_split; unfold bind at 1; rewrite Hep; unfold bind at 1;
          rewrite Hi.
  destruct (acknowledge w tag r si) as [[res s'] tk] eqn:Ha.
  rewrite callback_split. unfold bind at 1. rewrite Hep. unfold bind at 1.
  by rewrite Hi, Ha.
Qed.

(** X11: [callback] keeps the counters of [self] in order: if before a
    message 0 <= unique_listens <= incoming_listens, the same holds after
    it, however the message ends (a count, the sentinel, an exception, or a
    retry loop that has not ended). *)
Theorem callback_keeps_counters_in_order MAX from_json w tag listens s :
  counters_ok s → counters_ok (callback MAX from_json w tag listens s).1.2.
Proof.
  intros Hs. pose proof (callback_cases MAX from_json w tag listens s) as Hc.
  destruct (enrich_and_parse MAX from_json w listens s) as [[[submit|e|] sa] ta];
    [|by rewrite Hc..].
  destruct (insert_to_listenstore w submit s) as [[resi si] ti] eqn:Hi.
  apply insert_follows_a_path in Hi.
  pose proof (insert_path_counters_ok _ _ _ _ _ _ Hi Hs) as Hsi.
  destruct resi as [r|e|]; [|by rewrite Hc..].
  destruct (acknowledge w tag r si) as [[res s'] tk] eqn:Ha. rewrite Hc. simpl.
  apply acknowledge_outcome in Ha as (_ & _ & _ & Hin & Hun & _).
  unfold counters_ok in *. by rewrite Hin, Hun.
Qed.

(** X12: for a batch that is processed and has a non-empty unique subset,
    the metrics are submitted exactly when the monotonic clock is strictly
    past [metric_submission_time] (line 216): a clock that equals the
    deadline submits nothing. *)
Theorem flush_exactly_when_clock_is_past_deadline w data s r s' t :
  insert_to_listenstore w data s = (Returned r, s', t) →
  batch_unique w data ≠ [] →
  (flushes t ≠ [] ↔ monotonic w > metric_submission_time s)
  ∧ (monotonic w = metric_submission_time s → flushes t = []).
Proof.
  intros H Hu. apply insert_follows_a_path in H. unfold batch_unique in Hu.
  assert (Hpt : ∀ rows k, flushes (publish_trace w s data rows k) = [])
    by (intros; apply flushes_none, publish_trace_quiet).
  inversion H as
    [ Hd | err Hd Hins | e Hd Hins He | Hd Hins | rows Hd Hins Hr Hun
    | rows k Hd Hins Hr Hun Hs | rows k e rest Hd Hins Hr Hun Hs He
    | rows k rest e Hd Hins Hr Hun Hs Hrec
    | rows k rest Hd Hins Hr Hun Hs Hrec Hdue
    | rows k rest Hd Hins Hr Hun Hs Hrec Hdue ]; subst; try rewrite Hins in Hu.
  - by destruct (ls_insert w []).
  - done.
  - by rewrite compute_unique_no_rows in Hu.
  - done.
  - rewrite flushes_app, Hpt. simpl. split; [done|]. lia.
  - rewrite flushes_app, Hpt. simpl. split; [done|]. done.
Qed.

(** ** What the collaborators are handed *)

Lemma day_increments_app t1 t2 :
  day_increments (t1 ++ t2) = day_increments t1 ++ day_increments t2.
Proof. apply omap_app. Qed.

Lemma day_increments_none t :
  Forall (λ e, match e with EvIncrementDay _ => False | _ => True end) t →
  day_increments t = [].
Proof.
  unfold day_increments. induction 1 as [|e t He _ IH]; [done|].
  destruct e; simpl in *; done.
Qed.

Lemma day_increments_events w rows :
  day_increments (increment_events w rows) = [len rows].
Proof. unfold increment_events. by destruct (increment_listen_count_for_day w). Qed.

Lemma day_increments_retry w ch body k c :
  day_increments (retry_trace w (EvPublish ch body false) k c) = [].
Proof.
  apply day_increments_none. revert c. induction k as [|k IH]; intros c; simpl;
    repeat constructor; auto.
Qed.

Lemma day_increments_attempts w s data rows k :
  day_increments (attempts_trace w s data rows k) = [len rows].
Proof.
  unfold attempts_trace.
  change (EvInsert data :: increment_events w rows)
    with ([EvInsert data] ++ increment_events w rows).
  by rewrite !day_increments_app, day_increments_events, day_increments_retry.
Qed.

Lemma day_increments_publish w s data rows k :
  day_increments (publish_trace w s data rows k) = [len rows].
Proof.
  unfold publish_trace.
  change (EvInsert data :: increment_events w rows)
    with ([EvInsert data] ++ increment_events w rows).
  by rewrite !day_increments_app, day_increments_events, day_increments_retry.
Qed.

(** X13: the per-day counter (line 184) is incremented at most once per
    batch, by the number of rows the storage reported as inserted (not by the
    size of the unique subset), and only when the batch is not empty, the
    insert went through and reported at least one row. *)
Theorem day_counter_counts_reported_rows w data s :
  day_increments (insert_to_listenstore w data s).2
  = if bool_decide (data = []) then [] else
    match ls_insert w data with
    | Ok rows_inserted =>
        if bool_decide (rows_inserted = []) then [] else [len rows_inserted]
    | Raises _ => []
    end.
Proof.
  destruct (insert_to_listenstore w data s) as [[res s'] t] eqn:H.
  apply insert_follows_a_path in H. cbn [snd].
  destruct H as
    [ Hd | err Hd Hins | e Hd Hins He | Hd Hins | rows Hd Hins Hr Hun
    | rows k Hd Hins Hr Hun Hs | rows k e rest Hd Hins Hr Hun Hs He
    | rows k rest e Hd Hins Hr Hun Hs Hrec
    | rows k rest Hd Hins Hr Hun Hs Hrec Hdue
    | rows k rest Hd Hins Hr Hun Hs Hrec Hdue ];
    [ by rewrite bool_decide_eq_true_2
    | rewrite bool_decide_eq_false_2, Hins by done.. ];
    try done; rewrite bool_decide_eq_false_2 by done.
  - change (EvInsert data :: increment_events w rows)
      with ([EvInsert data] ++ increment_events w rows).
    by rewrite day_increments_app, day_increments_events.
  - apply day_increments_attempts.
  - by rewrite day_increments_app, day_increments_attempts.
  - by rewrite day_increments_app, day_increments_publish.
  - by rewrite day_increments_app, day_increments_publish.
  - by rewrite day_increments_app, day_increments_publish.
Qed.

Lemma elem_of_retry_trace w attempt k c e :
  e ∈ retry_trace w attempt k c → e = attempt ∨ ∃ c', e = EvConnect c'.
Proof.
  revert c. induction k as [|k IH]; intros c; simpl.
  - by intros ?%elem_of_nil.
  - rewrite !elem_of_cons. intros [->|[->|H]]; eauto.
Qed.

Lemma elem_of_increment_events w rows e :
  e ∈ increment_events w rows → (∃ n, e = EvIncrementDay n) ∨ ∃ m, e = EvLogError m.
Proof.
  unfold increment_events. destruct (increment_listen_count_for_day w);
    rewrite ?elem_of_cons, ?elem_of_nil; intros H; destruct_or!; subst; eauto; done.
Qed.

Lemma elem_of_attempts_trace w s data rows k e :
  e ∈ attempts_trace w s data rows k →
  match e with
  | EvPublish ch body delivered =>
      ch = unique_ch s ∧ body = compute_unique data rows ∧ delivered = false
  | EvUpdateRecent _ => False
  | _ => True
  end.
Proof.
  unfold attempts_trace. rewrite elem_of_app, elem_of_cons.
  intros [[->|H]|H]; [done| |].
  - apply elem_of_increment_events in H as [[n ->]|[m ->]]; done.
  - apply elem_of_retry_trace in H as [->|[c' ->]]; done.
Qed.

Lemma elem_of_publish_trace w s data rows k e :
  e ∈ publish_trace w s data rows k →
  match e with
  | EvPublish ch body _ => ch = unique_ch s ∧ body = compute_unique data rows
  | EvUpdateRecent _ => False
  | _ => True
  end.
Proof.
  unfold publish_trace. rewrite (app_assoc (_ :: _)). rewrite elem_of_app.
  intros [H|H].
  - apply (elem_of_attempts_trace w s data rows k) in H. destruct e; try done. by destruct H as (-> & -> & ?).
  - apply list_elem_of_singleton in H as ->. done.
Qed.

(** X14: every [basic_publish] of a batch (first attempt or retry) goes to
    [self.unique_ch] as it was when the batch started and carries the unique
    subset of the batch, which is not empty; and the recent-listens cache is
    only ever handed that same unique subset, in a run in which the broker
    took a publish of it. *)
Theorem recent_cache_gets_what_was_published w data s e :
  e ∈ (insert_to_listenstore w data s).2 →
  match e with
  | EvPublish ch body _ =>
      ch = unique_ch s ∧ body = batch_unique w data ∧ body ≠ []
  | EvUpdateRecent unique =>
      unique = batch_unique w data
      ∧ EvPublish (unique_ch s) unique true ∈ (insert_to_listenstore w data s).2
  | _ => True
  end.
Proof.
  destruct (insert_to_listenstore w data s) as [[res s'] t] eqn:H.
  apply insert_follows_a_path in H. simpl. unfold batch_unique.
  destruct H as
    [ Hd | err Hd Hins | e0 Hd Hins He | Hd Hins | rows Hd Hins Hr Hun
    | rows k Hd Hins Hr Hun Hs | rows k e0 rest Hd Hins Hr Hun Hs He
    | rows k rest e0 Hd Hins Hr Hun Hs Hrec
    | rows k rest Hd Hins Hr Hun Hs Hrec Hdue
    | rows k rest Hd Hins Hr Hun Hs Hrec Hdue ];
    try rewrite Hins.
  - by intros ?%elem_of_nil.
  - rewrite !elem_of_cons, elem_of_nil. intros H; destruct_or!; by subst.
  - rewrite !elem_of_cons, elem_of_nil. intros H; destruct_or!; by subst.
  - rewrite !elem_of_cons, elem_of_nil. intros H; destruct_or!; by subst.
  - rewrite elem_of_cons. intros [->|H]; [done|].
    apply elem_of_increment_events in H as [[n ->]|[m ->]]; done.
  - intros H. apply elem_of_attempts_trace in H. destruct e; try done. by destruct H as (-> & -> & ?).
  - rewrite elem_of_app, list_elem_of_singleton. intros [H| ->]; [|done].
    apply elem_of_attempts_trace in H. destruct e; try done. by destruct H as (-> & -> & ?).
  - rewrite elem_of_app, list_elem_of_singleton. intros [H| ->].
    + apply elem_of_publish_trace in H. destruct e; try done. by destruct H as (-> & ->).
    + split; [done|]. apply elem_of_app. left. apply publish_trace_delivers.
  - rewrite elem_of_app, !elem_of_cons, elem_of_nil. intros [H|H].
    + apply elem_of_publish_trace in H. destruct e; try done. by destruct H as (-> & ->).
    + destruct_or!; subst; try done.
      split; [done|]. apply elem_of_app. left. apply publish_trace_delivers.
  - rewrite elem_of_app, !elem_of_cons, elem_of_nil. intros [H|H].
    + apply elem_of_publish_trace in H. destruct e; try done. by destruct H as (-> & ->).
    + destruct_or!; subst; try done.
      split; [done|]. apply elem_of_app. left. apply publish_trace_delivers.
Qed.

(** X15: a batch the storage refuses with an [OperationalError] is counted
    in [incoming_listens] all the same (line 171 precedes the insert). When
    the message is redelivered and processed, it is counted again: incoming
    counts submitted plus held grow by twice the batch, unique counts by the
    unique subset once. *)
Theorem redelivered_batch_is_counted_twice w1 w2 data s err s1 t1 r s2 t2 :
  data ≠ [] →
  ls_insert w1 data = Raises (OperationalError err) →
  insert_to_listenstore w1 data s = (Returned LISTEN_INSERT_ERROR_SENTINEL, s1, t1) →
  insert_to_listenstore w2 data s1 = (Returned r, s2, t2) →
  r ≠ LISTEN_INSERT_ERROR_SENTINEL →
  unique_listens s1 = unique_listens s
  ∧ emitted_incoming t2 + incoming_listens s2 = incoming_listens s + 2 * len data
  ∧ emitted_unique t2 + unique_listens s2 = unique_listens s + len (batch_unique w2 data).
Proof.
  intros Hd Hins H1 H2 Hr.
  rewrite (insert_raises w1 s data _ Hd Hins) in H1. simpl in H1. simplify_eq.
  destruct (insert_counters_step _ _ _ _ _ _ H2 Hr)
    as [(Hf & Ha & Hb & _)|(Hf & Ha & Hb & _)];
    unfold emitted_incoming, emitted_unique; rewrite Hf; simpl in *;
    unfold total; simpl; split_and!; try done; lia.
Qed.

(** ** The acknowledgment, in every run of [callback] *)

(** X16: in every run of [callback], also one that ends in an exception or
    inside a retry loop, the broker takes at most one acknowledgment of the
    message: exactly one when [callback] returns a value other than the
    sentinel, none in every other case. *)
Theorem acknowledged_only_when_callback_returns_a_count MAX from_json w tag listens s :
  acks_delivered tag (callback MAX from_json w tag listens s).2
  = match (callback MAX from_json w tag listens s).1.1 with
    | Returned r => if bool_decide (r = LISTEN_INSERT_ERROR_SENTINEL) then O else 1%nat
    | Raised _ | Retrying => O
    end.
Proof.
  pose proof (callback_cases MAX from_json w tag listens s) as Hc.
  pose proof (enrich_and_parse_emits_no_ack MAX from_json w listens s) as Hep.
  destruct (enrich_and_parse MAX from_json w listens s) as [[[submit|e|] sa] ta];
    simpl in Hep.
  2, 3: by rewrite Hc; simpl; apply no_ack_delivered.
  pose proof (insert_emits_no_ack w submit s) as Hin.
  destruct (insert_to_listenstore w submit s) as [[[r|e|] si] ti]; simpl in Hin.
  2, 3: by rewrite Hc; simpl; apply no_ack_delivered, Forall_app.
  destruct (acknowledge w tag r si) as [[res s'] tk] eqn:Ha. rewrite Hc. simpl.
  apply acknowledge_outcome in Ha as (_ & Hd & _).
  unfold acks_delivered in *. rewrite !count_events_app, Hd.
  fold (acks_delivered tag ta) (acks_delivered tag ti).
  by rewrite !no_ack_delivered.
Qed.

(** X17: the acknowledgment comes last: the calls of a run of [callback]
    split into the work (lookups, insert, counters, publishes, cache, clock,
    metrics), which has no [basic_ack], followed by [basic_ack] calls and the
    reconnects between them only. *)
Theorem acknowledgment_comes_last MAX from_json w tag listens s :
  ∃ work acks,
    (callback MAX from_json w tag listens s).2 = work ++ acks
    ∧ Forall (λ e, is_ack e = false) work
    ∧ Forall (λ e, is_ack_or_connect e = true) acks.
Proof.
  pose proof (callback_cases MAX from_json w tag listens s) as Hc.
  pose proof (enrich_and_parse_emits_no_ack MAX from_json w listens s) as Hep.
  destruct (enrich_and_parse MAX from_json w listens s) as [[[submit|e|] sa] ta];
    simpl in Hep.
  2, 3: by rewrite Hc; exists ta, []; rewrite app_nil_r.
  pose proof (insert_emits_no_ack w submit s) as Hin.
  destruct (insert_to_listenstore w submit s) as [[[r|e|] si] ti]; simpl in Hin.
  2, 3: by rewrite Hc; exists (ta ++ ti), []; rewrite app_nil_r; split_and!;
          [done|apply Forall_app|done].
  destruct (acknowledge w tag r si) as [[res s'] tk] eqn:Ha. rewrite Hc. simpl.
  apply acknowledge_outcome in Ha as (Hk & _).
  exists (ta ++ ti), tk. rewrite app_assoc. split_and!; [done| |done].
  by apply Forall_app.
Qed.

(** ** Edge cases of a message *)

Lemma chunks_all_failed w n chunks :
  (∀ i request, ∃ e, submit_listens w i request = Raises e) →
  concat (imap (λ i, chunk_enriched w (n + i)) chunks) = [].
Proof.
  intros Hw. revert n. induction chunks as [|chunk rest IH]; intros n; [done|].
  rewrite imap_cons. cbn [concat]. unfold chunk_enriched at 1.
  destruct (Hw (n + 0)%nat (messy_dict_of <$> chunk)) as [e ->]. simpl.
  rewrite <- (IH (S n)). f_equal. apply imap_ext. intros i x _. simpl. f_equal. lia.
Qed.

Lemma lookup_trace_only_lookups w n chunks :
  Forall (λ e, match e with EvLookup _ | EvLogError _ => True | _ => False end)
    (concat (imap (λ i, lookup_events w (n + i)) chunks)).
Proof.
  revert n. induction chunks as [|chunk chunks IH]; intros n; [constructor|].
  rewrite imap_cons. cbn [concat]. apply Forall_app. split.
  - unfold lookup_events. cbv zeta.
    destruct (submit_listens w (n + 0) (messy_dict_of <$> chunk)) as [payload|e];
      [destruct (mapM augment_pair (zip chunk payload))|]; by repeat constructor.
  - specialize (IH (S n)). erewrite imap_ext; [exact IH|].
    intros i x _. simpl. f_equal. lia.
Qed.

(** X18: a message all of whose lookups fail with a handled exception is
    acknowledged and lost: [callback] returns 0, the storage is never called,
    nothing is published, and the broker takes the acknowledgment (after [k]
    reconnects when the connection was closed [k] times). *)
Theorem message_without_survivors_is_acknowledged MAX from_json w tag listens s k rest :
  (∀ i request, ∃ e, submit_listens w i request = Raises e ∧ is_lookup_failure e = true) →
  ack_script w = closed k ++ None :: rest →
  ∃ t, callback MAX from_json w tag listens s = (Returned 0, reconnected w k s, t)
    ∧ acks_delivered tag t = 1%nat
    ∧ count_events is_insert t = O
    ∧ publish_calls t = O.
Proof.
  intros Hw Hs.
  assert (Hw1 : ∀ i request e, submit_listens w i request = Raises e →
                  is_lookup_failure e = true).
  { intros i request e He. destruct (Hw i request) as (e' & He' & Hf). congruence. }
  assert (Hw2 : ∀ i request, ∃ e, submit_listens w i request = Raises e).
  { intros i request. destruct (Hw i request) as (e & He & _). eauto. }
  pose proof (callback_cases MAX from_json w tag listens s) as Hc.
  unfold enrich_and_parse, enrich in Hc. unfold bind at 1 in Hc.
  rewrite (lookup_chunks_eq _ _ _ _ _ Hw1) in Hc.
  rewrite (chunks_all_failed w 0 _ Hw2) in Hc. simpl in Hc.
  destruct (acknowledge_delivered w tag 0 s k rest) as (ta & Ha & Hd & Hcalls);
    [done|done|].
  rewrite Ha in Hc. apply acknowledge_outcome in Ha as (Hta & _).
  set (looks := concat _) in Hc.
  assert (Hlooks : Forall (λ e, match e with EvLookup _ | EvLogError _ => True
                                | _ => False end) looks).
  { unfold looks. apply (lookup_trace_only_lookups w 0). }
  eexists. split; [exact Hc|]. rewrite app_nil_r.
  assert (Hq : ∀ p : event → bool,
            (∀ r, p (EvLookup r) = false) → (∀ m, p (EvLogError m) = false) →
            count_events p looks = O).
  { intros p H1 H2. apply count_events_none. eapply Forall_impl; [exact Hlooks|].
    intros []; simpl; try done. }
  assert (Hqa : ∀ p : event → bool,
            (∀ ch tg d, p (EvAck ch tg d) = false) → (∀ c, p (EvConnect c) = false) →
            count_events p ta = O).
  { intros p H1 H2. apply count_events_none. eapply Forall_impl; [exact Hta|].
    intros []; simpl; try done. }
  split_and!.
  - unfold acks_delivered in *. rewrite count_events_app, Hd.
    by rewrite (Hq (is_delivered_ack tag)).
  - by rewrite count_events_app, (Hq is_insert), (Hqa is_insert).
  - unfold publish_calls. by rewrite count_events_app, (Hq is_publish), (Hqa is_publish).
Qed.

(** ** The count [callback] returns *)

Lemma chunk_enriched_length w i chunk :
  (length (chunk_enriched w i chunk) ≤ length chunk)%nat.
Proof.
  unfold chunk_enriched.
  destruct (submit_listens w i (messy_dict_of <$> chunk)) as [payload|e]; [|simpl; lia].
  destruct (mapM augment_pair (zip chunk payload)) as [out|] eqn:E; [|simpl; lia].
  apply length_mapM in E. simpl. rewrite <- E, length_zip_with. lia.
Qed.

Lemma lookup_chunks_returned w n chunks acc s out s' t :
  lookup_chunks w n chunks acc s = (Returned out, s', t) →
  (length out ≤ length acc + length (concat chunks))%nat.
Proof.
  revert n acc t. induction chunks as [|chunk rest IH]; intros n acc t H.
  - simpl in H. unfold ret in H. simplify_eq. simpl. lia.
  - cbn [lookup_chunks] in H. unfold bind in H.
    rewrite messybrainz_lookup_eq in H.
    pose proof (chunk_enriched_length w n chunk) as Hlen.
    cbn [concat]. rewrite length_app.
    destruct (submit_listens w n (messy_dict_of <$> chunk)) as [payload|e] eqn:E.
    + destruct (lookup_chunks w (S n) rest (acc ++ chunk_enriched w n chunk) s)
        as [[res1 s1] t1] eqn:E1. simplify_eq.
      apply IH in E1. rewrite length_app in E1. lia.
    + destruct (is_lookup_failure e); [|discriminate].
      destruct (lookup_chunks w (S n) rest (acc ++ []) s) as [[res1 s1] t1] eqn:E1.
      simplify_eq. apply IH in E1. rewrite length_app in E1. simpl in E1. lia.
Qed.

Lemma parse_listens_returned from_json msb_listens submit s out s' t :
  parse_listens from_json msb_listens submit s = (Returned out, s', t) →
  (length out ≤ length submit + length msb_listens)%nat.
Proof.
  revert submit t. induction msb_listens as [|listen rest IH]; intros submit t H.
  - simpl in H. unfold ret in H. simplify_eq. lia.
  - cbn [parse_listens] in H. unfold bind, try_except in H.
    destruct (from_json listen) as [l|e]; simpl in H.
    + destruct (parse_listens from_json rest (submit ++ [l]) s) as [[res1 s1] t1] eqn:E1.
      simplify_eq. apply IH in E1. rewrite length_app in E1. simpl in *. lia.
    + destruct (is_ValueError e); simpl in H; [|discriminate].
      destruct (parse_listens from_json rest submit s) as [[res1 s1] t1] eqn:E1.
      simplify_eq. apply IH in E1. simpl. lia.
Qed.

Lemma chunked_concat_length {A} (l : list A) n :
  (length (concat (chunked l n)) ≤ length l)%nat.
Proof.
  destruct n as [|n]; [simpl; lia|]. rewrite chunked_concat by lia. done.
Qed.

(** X19: a value [callback] returns is the sentinel or a count between 0 and
    the number of records of the message: enrichment and parsing only ever
    drop records. *)
Theorem callback_returns_at_most_the_message_size MAX from_json w tag listens s r :
  (callback MAX from_json w tag listens s).1.1 = Returned r →
  r = LISTEN_INSERT_ERROR_SENTINEL ∨ 0 ≤ r ≤ len listens.
Proof.
  pose proof (callback_cases MAX from_json w tag listens s) as Hc.
  destruct (enrich_and_parse MAX from_json w listens s) as [[[submit|e|] sa] ta] eqn:Hep.
  2, 3: by rewrite Hc.
  assert (Hsub : (length submit ≤ length listens)%nat).
  { unfold enrich_and_parse, enrich in Hep. unfold bind in Hep.
    destruct (lookup_chunks w 0 (chunked listens MAX) [] s) as [[[msb|e|] s1] t1] eqn:El;
      try discriminate.
    destruct (parse_listens from_json msb [] s1) as [[res2 s2] t2] eqn:Ep. simplify_eq.
    apply lookup_chunks_returned in El. apply parse_listens_returned in Ep.
    pose proof (chunked_concat_length listens MAX). simpl in *. lia. }
  destruct (insert_to_listenstore w submit s) as [[[ri|e|] si] ti] eqn:Hi.
  2, 3: by rewrite Hc.
  destruct (acknowledge w tag ri si) as [[res s'] tk] eqn:Ha. rewrite Hc. simpl.
  intros ->. apply acknowledge_outcome in Ha as (_ & _ & Hr & _).
  rewrite (Hr r eq_refl).
  apply insert_follows_a_path in Hi.
  inversion Hi; subst; try (by left); right; unfold len; simpl; lia.
Qed.

(** ** The channels *)

Ltac keeps_more :=
  repeat match goal with
    | |- keeps _ (bind _ _) => apply keeps_bind
    | |- keeps _ (try_except _ _ _) => apply keeps_try_except
    | |- keeps _ (publish_loop _ _ _) => apply keeps_publish_loop
    | |- keeps _ (call _ _) => apply keeps_call
    | |- keeps _ (call_unit _ _) => apply keeps_call_unit
    | |- keeps _ (log_error _) => apply keeps_log_error
    | |- keeps _ (emit _) => apply keeps_emit
    | |- keeps _ (ret _) => apply keeps_ret
    | |- keeps _ (raise _) => apply keeps_raise
    | |- keeps _ (get _) => apply keeps_get
    | |- keeps _ (modify _) => apply keeps_modify
    | |- keeps _ (match ?x with _ => _ end) => destruct x
    | |- ∀ _, _ => intro
    | |- _ = _ => reflexivity
    end.

Lemma insert_keeps_channels w data :
  keeps (λ s, (incoming_ch s, unique_ch s)) (insert_to_listenstore w data).
Proof. unfold insert_to_listenstore, submit_metrics_if_due. keeps_more. Qed.

(** X20: [callback] never assigns [self.incoming_ch] or [self.unique_ch]:
    whatever happens while a message is handled, reconnects included, both
    channels are the ones [self] held before. *)
Theorem callback_never_replaces_channels MAX from_json w tag listens s :
  incoming_ch (callback MAX from_json w tag listens s).1.2 = incoming_ch s
  ∧ unique_ch (callback MAX from_json w tag listens s).1.2 = unique_ch s.
Proof.
  pose proof (callback_cases MAX from_json w tag listens s) as Hc.
  destruct (enrich_and_parse MAX from_json w listens s) as [[[submit|e|] sa] ta].
  2, 3: by rewrite Hc.
  pose proof (insert_keeps_channels w submit s) as Hk. simpl in Hk.
  destruct (insert_to_listenstore w submit s) as [[[ri|e|] si] ti]; simpl in Hk.
  2, 3: rewrite Hc; simpl; by simplify_eq.
  destruct (acknowledge w tag ri si) as [[res s'] tk] eqn:Ha. rewrite Hc. simpl.
  apply acknowledge_outcome in Ha as (_ & _ & _ & _ & _ & _ & -> & ->).
  by simplify_eq.
Qed.

(** ** Start-up *)

Ltac absurd_key :=
  match goal with
  | H : ?c !! ?k = None, H' : is_Some (?c !! ?k) |- _ =>
      rewrite H in H'; by destruct H' as [? ?]
  end.

(** X21: [_verify_hosts_in_config] lets start-up go on, without a log
    record or a sleep, exactly when the configuration has the keys
    [REDIS_HOST], [RABBITMQ_HOST] and [SQLALCHEMY_TIMESCALE_URI]. Otherwise it
    calls [sys.exit(-1)] after one critical record and one sleep of 3
    seconds, and the record names the first missing service in the order
    Redis, RabbitMQ, Timescale, only that one. *)
Theorem hosts_check_stops_at_first_missing_service config :
  ((_verify_hosts_in_config config).1 = Proceeds
   ↔ Forall (λ p, is_Some (config !! p.1)) required_hosts)
  ∧ ((_verify_hosts_in_config config).1 = Proceeds
     → (_verify_hosts_in_config config).2 = [])
  ∧ ∀ i key service,
      required_hosts !! i = Some (key, service) →
      config !! key = None →
      Forall (λ p, is_Some (config !! p.1)) (take i required_hosts) →
      _verify_hosts_in_config config
      = (SystemExit (-1),
         [BootCritical (service +:+ " service not defined. Sleeping 3 seconds and exiting.");
          BootSleep 3]).
Proof.
  unfold _verify_hosts_in_config, required_hosts.
  rewrite !Forall_cons, Forall_nil. cbn [fst].
  repeat case_bool_decide;
    repeat match goal with
      | H : _ ∉ dom _ |- _ => apply not_elem_of_dom in H
      | H : ¬ _ ∉ dom _ |- _ => apply dec_stable in H
      | H : _ ∈ dom _ |- _ => apply elem_of_dom in H
      end.
  all: split_and!; simpl; try done.
  all: try (split; [done|]; intros (K1 & K2 & K3 & _); absurd_key).
  all: try (split; [intros _; by split_and!|done]).
  all: intros [|[|[|i]]] key service Hi Hk Hp; simplify_eq/=; try done.
  all: repeat match goal with
         | H : Forall _ (_ :: _) |- _ => apply Forall_cons in H as [? ?]
         end; simpl in *; absurd_key.
Qed.

(** ** The waits for the stores *)

Lemma slept_app t1 t2 : slept (t1 ++ t2) = slept t1 + slept t2.
Proof.
  unfold slept. by rewrite omap_app, total_app.
Qed.

Lemma slept_cons e t :
  slept (e :: t) = match e with BootSleep n => n + slept t | _ => slept t end.
Proof. by destruct e. Qed.

Lemma errors_logged_cons e t :
  errors_logged (e :: t)
  = match e with BootError msg => msg :: errors_logged t | _ => errors_logged t end.
Proof. by destruct e. Qed.

Lemma pings_cons e t :
  pings (e :: t) = match e with BootPing => S (pings t) | _ => pings t end.
Proof.
  unfold pings. destruct e; (rewrite filter_cons_True by done)
                            || (rewrite filter_cons_False by done); done.
Qed.

Ltac boot_arith :=
  rewrite ?slept_cons, ?errors_logged_cons, ?pings_cons;
  unfold len, ERROR_RETRY_DELAY in *; cbn [length]; lia.

Lemma timescale_wait_outcome script st :
  let out := timescale_wait script st in
  slept out.2 = ERROR_RETRY_DELAY * len (errors_logged out.2)
  ∧ Forall announces_two_seconds (errors_logged out.2)
  ∧ pings out.2 = O
  ∧ out.1.1 ≠ SystemExit (-1) ∧ (∀ code, out.1.1 ≠ SystemExit code)
  ∧ redis_listenstore out.1.2 = redis_listenstore st
  ∧ (out.1.1 = Proceeds → is_Some (ls out.1.2))
  ∧ (out.1.1 ≠ Proceeds → out.1.2 = st).
Proof.
  induction script as [|[ts|str_err] script IH]; simpl.
  - by split_and!.
  - by split_and!.
  - destruct (timescale_wait script st) as [[r st'] t]. simpl in *.
    destruct IH as (Hs & Ha & Hp & Hx & Hx' & Hr & Hl & Hw).
    split_and!; try done.
    + boot_arith.
    + constructor; [|done].
      by exists ("Cannot connect to timescale: " +:+ str_err).
Qed.

Lemma redis_wait_outcome script redis st :
  let out := redis_wait script redis st in
  slept out.2 = ERROR_RETRY_DELAY * len (errors_logged out.2)
  ∧ Forall announces_two_seconds (errors_logged out.2)
  ∧ (∀ code, out.1.1 ≠ SystemExit code)
  ∧ ls out.1.2 = ls st
  ∧ (out.1.1 = Proceeds →
     redis_listenstore out.1.2 = Some redis
     ∧ pings out.2 = S (length (errors_logged out.2)))
  ∧ (out.1.1 ≠ Proceeds →
     out.1.2 = st ∧ pings out.2 = length (errors_logged out.2)).
Proof.
  induction script as [|[[]|str_err] script IH]; simpl.
  - by split_and!.
  - by split_and!.
  - destruct (redis_wait script redis st) as [[r st'] t]. simpl in *.
    destruct IH as (Hs & Ha & Hx & Hl & Hp & Hw).
    split_and!; try done.
    + boot_arith.
    + constructor; [|done].
      by exists ("Cannot connect to redis: " +:+ str_err).
    + intros Hr. destruct (Hp Hr) as [-> Hn]. split; [done|]. boot_arith.
    + intros Hr. destruct (Hw Hr) as [-> Hn]. split; [done|]. boot_arith.
Qed.

(** X22: the waits of [start] for Timescale and Redis (lines 231-248) never
    end the process and never give up: whatever the stores answer, the time
    slept is 3 seconds for every error record logged, while every such
    record announces a retry in 2 seconds. When the waits are over, both
    store handles are set and Redis has been pinged; until then
    [self.redis_listenstore] is not assigned. *)
Theorem store_waits_never_give_up ts_script ping_script redis st :
  let out := wait_for_stores ts_script ping_script redis st in
  slept out.2 = 3 * len (errors_logged out.2)
  ∧ Forall announces_two_seconds (errors_logged out.2)
  ∧ (∀ code, out.1.1 ≠ SystemExit code)
  ∧ (out.1.1 = Proceeds →
     is_Some (ls out.1.2) ∧ redis_listenstore out.1.2 = Some redis
     ∧ (0 < pings out.2)%nat)
  ∧ (out.1.1 ≠ Proceeds → redis_listenstore out.1.2 = redis_listenstore st).
Proof.
  unfold wait_for_stores.
  pose proof (timescale_wait_outcome ts_script st) as Ht.
  destruct (timescale_wait ts_script st) as [[r1 st1] t1]. simpl in Ht.
  destruct Ht as (Hs1 & Ha1 & Hp1 & _ & Hx1 & Hr1 & Hl1 & Hw1).
  destruct r1; simpl.
  - pose proof (redis_wait_outcome ping_script redis st1) as Hr.
    destruct (redis_wait ping_script redis st1) as [[r2 st2] t2]. simpl in *.
    destruct Hr as (Hs2 & Ha2 & Hx2 & Hl2 & Hp2 & Hw2).
    split_and!.
    + unfold errors_logged in *. rewrite slept_app, omap_app.
      unfold len in *. rewrite length_app. change ERROR_RETRY_DELAY with 3 in *. lia.
    + unfold errors_logged in *. rewrite omap_app. by apply Forall_app.
    + done.
    + intros Hr. destruct (Hp2 Hr) as [? Hn]. rewrite Hl2. split_and!; [auto|done|].
      unfold pings in *. rewrite filter_app, length_app. lia.
    + intros Hr. destruct (Hw2 Hr) as [-> _]. done.
  - by destruct (Hx1 code).
  - by split_and!.
Qed.

(** * The theorems at sample inputs *)

(** One record, every collaborator answering: the message is acknowledged
    once, in one call. *)
Lemma acknowledged_iff_not_sentinel_witness :
  let body := [raw "song" "alice" 100] in
  let run := enrich_and_parse 10 sample_from_json quiet_world body s0 in
  let submit := returned [] run.1.1 in
  let ins := insert_to_listenstore quiet_world submit run.1.2 in
  run = (Returned submit, run.1.2, run.2)
  ∧ ins = (Returned 1, ins.1.2, ins.2)
  ∧ ∃ s2 t, callback 10 sample_from_json quiet_world 7 body s0 = (Returned 1, s2, t)
      ∧ acks_delivered 7 t = 1%nat ∧ ack_calls t = 1%nat.
Proof.
  cbv zeta.
  set (run := enrich_and_parse 10 sample_from_json quiet_world [raw "song" "alice" 100] s0).
  set (ins := insert_to_listenstore quiet_world (returned [] run.1.1) run.1.2).
  assert (He : run = (Returned (returned [] run.1.1), run.1.2, run.2))
    by (vm_compute; reflexivity).
  assert (Hi : ins = (Returned 1, ins.1.2, ins.2)) by (vm_compute; reflexivity).
  split_and!; [exact He | exact Hi |].
  destruct (acknowledged_iff_not_sentinel 10 sample_from_json quiet_world 7
              _ _ _ _ _ _ _ _ He Hi) as (_ & H & _).
  apply (H ltac:(discriminate) O []). reflexivity.
Defined.

(** Two Listens, the second one reported: it is selected. *)
Lemma unique_selected_by_joined_key_witness :
  listen2 ∈ [listen1; listen2]
  ∧ listen_triple listen2 ∈ [(200, "tune", "bob")]
  ∧ listen2 ∈ compute_unique [listen1; listen2] [(200, "tune", "bob")].
Proof.
  assert (H1 : listen2 ∈ [listen1; listen2]) by (right; left).
  assert (H2 : listen_triple listen2 ∈ [((200, "tune", "bob") : Row)]) by left.
  split_and!; [exact H1 | exact H2 |].
  destruct (unique_selected_by_joined_key [listen1; listen2] [(200, "tune", "bob")])
    as (_ & _ & H & _).
  exact (H listen2 H1 H2).
Defined.

(** Two records in one sub-batch, the second response without
    [artist_msid]. *)
Lemma enrichment_drops_whole_sub_batches_witness :
  let body := [raw "a" "u" 1; raw "b" "u" 2] in
  (∀ i request e,
     submit_listens partial_world i request = Raises e → is_lookup_failure e = true)
  ∧ ∃ t, enrich 10 partial_world body s0
         = (Returned (concat (imap (chunk_enriched partial_world) (chunked body 10))), s0, t).
Proof.
  cbv zeta.
  assert (Hw : ∀ i request e,
             submit_listens partial_world i request = Raises e → is_lookup_failure e = true)
    by (intros i request e H; discriminate H).
  split; [exact Hw|].
  exact (proj1 (enrichment_drops_whole_sub_batches 10 partial_world
                  [raw "a" "u" 1; raw "b" "u" 2] s0 Hw)).
Defined.

(** The storage is unreachable: the sentinel, no publish, no ack. *)
Lemma insert_returns_sentinel_or_length_witness :
  [listen1] ≠ []
  ∧ ls_insert down_world [listen1] = Raises (OperationalError "connection refused")
  ∧ ∃ s' t, insert_to_listenstore down_world [listen1] s0
            = (Returned LISTEN_INSERT_ERROR_SENTINEL, s', t)
      ∧ publish_calls t = O ∧ ack_calls t = O.
Proof.
  assert (Hd : [listen1] ≠ []) by discriminate.
  assert (Hi : ls_insert down_world [listen1]
               = Raises (OperationalError "connection refused")) by reflexivity.
  split_and!; [exact Hd | exact Hi |].
  destruct (insert_returns_sentinel_or_length down_world [listen1] s0)
    as (_ & _ & H & _).
  exact (H Hd _ Hi).
Defined.

(** One new Listen with the clock past the deadline of [s0]: the call
    flushes. *)
Lemma counters_once_per_call_and_flush_witness :
  let run := insert_to_listenstore late_world [listen1] s0 in
  flush_due late_world [listen1] s0 = true
  ∧ flushes run.2 = [(1, 1)]
  ∧ incoming_listens run.1.2 = 0
  ∧ unique_listens run.1.2 = 0
  ∧ metric_submission_time run.1.2 = 120.
Proof.
  cbv zeta.
  assert (Hf : flush_due late_world [listen1] s0 = true) by (vm_compute; reflexivity).
  split; [exact Hf|].
  destruct (counters_once_per_call_and_flush late_world [listen1] s0) as (H & _).
  cbv zeta in H. rewrite Hf in H. exact H.
Defined.

(** A good record and a malformed one: one drop, no mark. *)
Lemma parse_failures_dropped_silently_witness :
  let body := [raw "song" "alice" 100; malformed_raw] in
  let run := enrich 10 quiet_world body s0 in
  let msb_listens := returned [] run.1.1 in
  run = (Returned msb_listens, run.1.2, run.2)
  ∧ (∀ r e, r ∈ msb_listens → sample_from_json r = Raises e → e = ValueError)
  ∧ drops sample_from_json msb_listens = 1%nat
  ∧ parse_listens sample_from_json msb_listens [] run.1.2
    = (Returned (omap (parsed sample_from_json) msb_listens), run.1.2, []).
Proof.
  cbv zeta.
  set (run := enrich 10 quiet_world [raw "song" "alice" 100; malformed_raw] s0).
  assert (He : run = (Returned (returned [] run.1.1), run.1.2, run.2))
    by (vm_compute; reflexivity).
  assert (Hv : ∀ r e, r ∈ returned [] run.1.1 →
                 sample_from_json r = Raises e → e = ValueError).
  { intros r e Hr. apply list_elem_of_In in Hr. vm_compute in Hr.
    destruct Hr as [<-|[<-|[]]]; vm_compute; intros H; [discriminate H|].
    by injection H as <-. }
  split_and!; [exact He | exact Hv | by vm_compute |].
  exact (proj1 (parse_failures_dropped_silently 10 sample_from_json quiet_world
                  7 _ s0 _ _ _ He Hv)).
Defined.


(** No new row although the clock is past the deadline: no emission. *)
Lemma deadline_examined_only_after_publish_witness :
  let ins := insert_to_listenstore none_new_world [listen1] s0 in
  ins = (ins.1.1, ins.1.2, ins.2)
  ∧ monotonic none_new_world > metric_submission_time s0
  ∧ ls_insert none_new_world [listen1] = Ok []
  ∧ (EvMonotonic ∉ ins.2) ∧ flushes ins.2 = []
  ∧ metric_submission_time ins.1.2 = metric_submission_time s0.
Proof.
  cbv zeta. set (ins := insert_to_listenstore none_new_world [listen1] s0).
  assert (Hi : ins = (ins.1.1, ins.1.2, ins.2)) by (vm_compute; reflexivity).
  assert (Hn : ls_insert none_new_world [listen1] = Ok []) by reflexivity.
  split_and!; [exact Hi | reflexivity | exact Hn |..];
    destruct (proj2 (deadline_examined_only_after_publish _ _ _ _ _ _ Hi)
                (or_intror (or_intror (or_introl Hn)))) as (H1 & H2 & H3);
    assumption.
Defined.

(** * The further properties at sample inputs *)

(** Two Listens that differ in track and user and share the joined key. *)
Lemma equal_keys_equal_timestamps_witness :
  listen_key colliding_listen = listen_key colliding_twin
  ∧ ts_since_epoch colliding_listen = ts_since_epoch colliding_twin
  ∧ track_name (data colliding_listen) +:+ "-" +:+ user_name colliding_listen
    = track_name (data colliding_twin) +:+ "-" +:+ user_name colliding_twin.
Proof.
  assert (H : listen_key colliding_listen = listen_key colliding_twin)
    by (vm_compute; reflexivity).
  split; [exact H|]. exact (equal_keys_equal_timestamps _ _ H).
Defined.

(** Both Listens of a batch reported as new. *)
Lemma unique_is_whole_batch_when_all_reported_witness :
  Forall (λ l, listen_triple l ∈ [listen_triple listen1; listen_triple listen2])
    [listen1; listen2]
  ∧ compute_unique [listen1; listen2] [listen_triple listen1; listen_triple listen2]
    = [listen1; listen2].
Proof.
  assert (H : Forall (λ l, listen_triple l ∈ [listen_triple listen1; listen_triple listen2])
                [listen1; listen2]).
  { repeat constructor. }
  split; [exact H|]. exact (unique_is_whole_batch_when_all_reported _ _ H).
Defined.

(** The colliding pair in one batch, only one of them reported. *)
Lemma equal_keys_selected_together_witness :
  colliding_listen ∈ [colliding_listen; colliding_twin]
  ∧ colliding_twin ∈ [colliding_listen; colliding_twin]
  ∧ listen_key colliding_listen = listen_key colliding_twin
  ∧ (colliding_listen ∈ compute_unique [colliding_listen; colliding_twin]
                         [listen_triple colliding_twin]
     ↔ colliding_twin ∈ compute_unique [colliding_listen; colliding_twin]
                          [listen_triple colliding_twin]).
Proof.
  assert (H1 : colliding_listen ∈ [colliding_listen; colliding_twin]) by left.
  assert (H2 : colliding_twin ∈ [colliding_listen; colliding_twin]) by (right; left).
  assert (H : listen_key colliding_listen = listen_key colliding_twin)
    by (vm_compute; reflexivity).
  split_and!; [exact H1 | exact H2 | exact H |].
  exact (equal_keys_selected_together _ [listen_triple colliding_twin] _ _ H1 H2 H).
Defined.

(** Three records looked up two at a time. *)
Lemma one_lookup_per_sub_batch_witness :
  let body := [raw "a" "u" 1; raw "b" "u" 2; raw "c" "u" 3] in
  let requests := lookup_requests (enrich 2 quiet_world body s0).2 in
  (0 < 2)%nat
  ∧ (∀ i request e,
       submit_listens quiet_world i request = Raises e → is_lookup_failure e = true)
  ∧ requests = (λ chunk : list RawRecord, messy_dict_of <$> chunk) <$> chunked body 2
  ∧ concat requests = messy_dict_of <$> body
  ∧ length requests = ((length body + 2 - 1) / 2)%nat
  ∧ Forall (λ request, (0 < length request ≤ 2)%nat) requests.
Proof.
  cbv zeta.
  assert (H : (0 < 2)%nat) by lia.
  assert (Hw : ∀ i request e,
             submit_listens quiet_world i request = Raises e → is_lookup_failure e = true)
    by (intros i request e He; discriminate He).
  split_and!; [exact H | exact Hw | ..];
    apply (one_lookup_per_sub_batch 2 quiet_world
             [raw "a" "u" 1; raw "b" "u" 2; raw "c" "u" 3] s0 H Hw).
Defined.

(** Two records, one response. *)
Lemma short_payload_drops_surplus_witness :
  let chunk := [raw "a" "u" 1; raw "b" "u" 2] in
  submit_listens short_world 0 (messy_dict_of <$> chunk) = Ok [full_ids]
  ∧ Forall has_both_ids [full_ids]
  ∧ ∃ out,
      messybrainz_lookup short_world 0 chunk s0
      = (Returned out, s0, [EvLookup (messy_dict_of <$> chunk)])
      ∧ length out = (length chunk `min` length [full_ids])%nat
      ∧ Forall2 (λ p listen, augment_pair p = Some listen) (zip chunk [full_ids]) out.
Proof.
  cbv zeta.
  assert (H : submit_listens short_world 0
                (messy_dict_of <$> [raw "a" "u" 1; raw "b" "u" 2]) = Ok [full_ids])
    by reflexivity.
  assert (Hb : Forall has_both_ids [full_ids]).
  { repeat constructor; by eexists. }
  split_and!; [exact H | exact Hb |].
  exact (short_payload_drops_surplus short_world 0 _ _ s0 H Hb).
Defined.

(** One record, the lookup failing with a [KeyError]. *)
Lemma unexpected_lookup_exception_escapes_witness :
  let body := [raw "song" "alice" 100] in
  (0 < 10)%nat ∧ body ≠ []
  ∧ submit_listens crashing_world 0 (messy_dict_of <$> take 10 body)
    = Raises (OtherError "KeyError")
  ∧ is_lookup_failure (OtherError "KeyError") = false
  ∧ callback 10 sample_from_json crashing_world 7 body s0
    = (Raised (OtherError "KeyError"), s0, [EvLookup (messy_dict_of <$> take 10 body)]).
Proof.
  cbv zeta.
  assert (H : (0 < 10)%nat) by lia.
  assert (Hn : [raw "song" "alice" 100] ≠ []) by discriminate.
  assert (Hs : submit_listens crashing_world 0
                 (messy_dict_of <$> take 10 [raw "song" "alice" 100])
               = Raises (OtherError "KeyError")) by reflexivity.
  assert (He : is_lookup_failure (OtherError "KeyError") = false) by reflexivity.
  split_and!; [exact H | exact Hn | exact Hs | exact He |].
  exact (unexpected_lookup_exception_escapes 10 sample_from_json crashing_world 7
           _ _ s0 H Hn Hs He).
Defined.

(** One message, every collaborator answering, the counters at zero. *)
Lemma callback_keeps_counters_in_order_witness :
  counters_ok s0
  ∧ counters_ok (callback 10 sample_from_json quiet_world 7 [raw "song" "alice" 100] s0).1.2.
Proof.
  assert (H : counters_ok s0) by (unfold counters_ok; simpl; lia).
  split; [exact H|].
  exact (callback_keeps_counters_in_order 10 sample_from_json quiet_world 7 _ s0 H).
Defined.

(** One new Listen, the clock past the deadline of [s0]. *)
Lemma flush_exactly_when_clock_is_past_deadline_witness :
  let ins := insert_to_listenstore late_world [listen1] s0 in
  ins = (Returned 1, ins.1.2, ins.2)
  ∧ batch_unique late_world [listen1] ≠ []
  ∧ (flushes ins.2 ≠ [] ↔ monotonic late_world > metric_submission_time s0)
  ∧ (monotonic late_world = metric_submission_time s0 → flushes ins.2 = []).
Proof.
  cbv zeta.
  set (ins := insert_to_listenstore late_world [listen1] s0).
  assert (Hi : ins = (Returned 1, ins.1.2, ins.2)) by (vm_compute; reflexivity).
  assert (Hu : batch_unique late_world [listen1] ≠ []) by (vm_compute; discriminate).
  split_and!; [exact Hi | exact Hu | ..];
    apply (flush_exactly_when_clock_is_past_deadline late_world [listen1] s0 _ _ _ Hi Hu).
Defined.

(** One new Listen: the cache is handed the Listen that was published. *)
Lemma recent_cache_gets_what_was_published_witness :
  EvUpdateRecent [listen1] ∈ (insert_to_listenstore quiet_world [listen1] s0).2
  ∧ [listen1] = batch_unique quiet_world [listen1]
  ∧ EvPublish (unique_ch s0) [listen1] true
    ∈ (insert_to_listenstore quiet_world [listen1] s0).2.
Proof.
  assert (H : EvUpdateRecent [listen1] ∈ (insert_to_listenstore quiet_world [listen1] s0).2).
  { apply (bool_decide_unpack _). vm_compute. exact I. }
  split; [exact H|].
  exact (recent_cache_gets_what_was_published quiet_world [listen1] s0 _ H).
Defined.

(** One Listen, the storage unreachable at the first delivery and back at
    the second. *)
Lemma redelivered_batch_is_counted_twice_witness :
  let first := insert_to_listenstore down_world [listen1] s0 in
  let second := insert_to_listenstore quiet_world [listen1] first.1.2 in
  [listen1] ≠ []
  ∧ ls_insert down_world [listen1] = Raises (OperationalError "connection refused")
  ∧ first = (Returned LISTEN_INSERT_ERROR_SENTINEL, first.1.2, first.2)
  ∧ second = (Returned 1, second.1.2, second.2)
  ∧ 1 ≠ LISTEN_INSERT_ERROR_SENTINEL
  ∧ unique_listens first.1.2 = unique_listens s0
  ∧ emitted_incoming second.2 + incoming_listens second.1.2
    = incoming_listens s0 + 2 * len [listen1]
  ∧ emitted_unique second.2 + unique_listens second.1.2
    = unique_listens s0 + len (batch_unique quiet_world [listen1]).
Proof.
  cbv zeta.
  set (first := insert_to_listenstore down_world [listen1] s0).
  set (second := insert_to_listenstore quiet_world [listen1] first.1.2).
  assert (Hn : [listen1] ≠ []) by discriminate.
  assert (Hd : ls_insert down_world [listen1]
               = Raises (OperationalError "connection refused")) by reflexivity.
  assert (H1 : first = (Returned LISTEN_INSERT_ERROR_SENTINEL, first.1.2, first.2))
    by (vm_compute; reflexivity).
  assert (H2 : second = (Returned 1, second.1.2, second.2)) by (vm_compute; reflexivity).
  assert (Hr : 1 ≠ LISTEN_INSERT_ERROR_SENTINEL) by discriminate.
  split_and!; [exact Hn | exact Hd | exact H1 | exact H2 | exact Hr | ..];
    apply (redelivered_batch_is_counted_twice down_world quiet_world [listen1] s0
             _ _ _ _ _ _ Hn Hd H1 H2 Hr).
Defined.

(** One record, the lookup service rejecting it. *)
Lemma message_without_survivors_is_acknowledged_witness :
  (∀ i request, ∃ e,
     submit_listens rejecting_world i request = Raises e ∧ is_lookup_failure e = true)
  ∧ ack_script rejecting_world = closed 0 ++ None :: []
  ∧ ∃ t, callback 10 sample_from_json rejecting_world 7 [raw "song" "alice" 100] s0
         = (Returned 0, reconnected rejecting_world 0 s0, t)
      ∧ acks_delivered 7 t = 1%nat
      ∧ count_events is_insert t = O
      ∧ publish_calls t = O.
Proof.
  assert (Hw : ∀ i request, ∃ e,
             submit_listens rejecting_world i request = Raises e
             ∧ is_lookup_failure e = true)
    by (intros i request; by exists BadDataException).
  assert (Ha : ack_script rejecting_world = closed 0 ++ None :: []) by reflexivity.
  split_and!; [exact Hw | exact Ha |].
  exact (message_without_survivors_is_acknowledged 10 sample_from_json rejecting_world 7
           [raw "song" "alice" 100] s0 O [] Hw Ha).
Defined.

(** One record that goes all the way: the count is one. *)
Lemma callback_returns_at_most_the_message_size_witness :
  (callback 10 sample_from_json quiet_world 7 [raw "song" "alice" 100] s0).1.1 = Returned 1
  ∧ (1 = LISTEN_INSERT_ERROR_SENTINEL ∨ 0 ≤ 1 ≤ len [raw "song" "alice" 100]).
Proof.
  assert (H : (callback 10 sample_from_json quiet_world 7 [raw "song" "alice" 100] s0).1.1
              = Returned 1) by (vm_compute; reflexivity).
  split; [exact H|].
  exact (callback_returns_at_most_the_message_size 10 sample_from_json quiet_world 7
           _ s0 1 H).
Defined.
